(** * Vanity-URL handler: path resolution and configuration lifecycle

    A shallow embedding of [handler/handler.go] (package [handler]) together
    with the properties of its resolver ([pathConfigSet.find]), its
    configuration compiler ([Handler.configure]), its request dispatcher
    ([Handler.ServeHTTP]) and its constructor and refresh loop
    ([NewHandler]).

    Go strings are byte sequences; they are modelled by [string], whose
    characters are the 256 values of [ascii], compared by [String.compare]
    (byte-wise lexicographic order, as Go's [<] on strings).  Go [int]
    values are modelled by [Z]; slice indices by [nat]. *)

From Stdlib Require Import String Ascii List ZArith Lia Bool Arith.
From Stdlib Require Import Sorting.Sorted Sorting.Permutation DecimalString.
Import ListNotations.
Local Open Scope list_scope.
Local Open Scope string_scope.

Set Implicit Arguments.

(** ** Package [strings] and string slicing *)

Module strings.

(** [s[n:]]; every use in the handler is guarded so that [n <= len(s)]. *)
Fixpoint slice_from (s : string) (n : nat) {struct n} : string :=
  match n, s with
  | O, _ => s
  | S n', String _ s' => slice_from s' n'
  | S _, EmptyString => EmptyString
  end.

(** [s[:n]] *)
Fixpoint slice_to (s : string) (n : nat) {struct n} : string :=
  match n, s with
  | O, _ => EmptyString
  | S n', String c s' => String c (slice_to s' n')
  | S _, EmptyString => EmptyString
  end.

(** [len(s) >= len(prefix) && s[0:len(prefix)] == prefix] *)
Definition HasPrefix (s prefix : string) : bool :=
  (String.length prefix <=? String.length s)%nat
  && (slice_to s (String.length prefix) =? prefix).

(** [len(s) >= len(suffix) && s[len(s)-len(suffix):] == suffix] *)
Definition HasSuffix (s suffix : string) : bool :=
  (String.length suffix <=? String.length s)%nat
  && (slice_from s (String.length s - String.length suffix) =? suffix).

Definition TrimPrefix (s prefix : string) : string :=
  if HasPrefix s prefix then slice_from s (String.length prefix) else s.

Definition TrimSuffix (s suffix : string) : string :=
  if HasSuffix s suffix
  then slice_to s (String.length s - String.length suffix)
  else s.

End strings.

(** ** Package [sort] *)

Module sort.

(** The loop of [sort.Search]: [for i < j { h := (i+j)/2; if !f(h) { i = h+1 }
    else { j = h } }].  Each turn shrinks [j - i], so [j - i] turns of fuel
    always suffice. *)
Fixpoint Search_loop (fuel : nat) (f : nat -> bool) (i j : nat) : nat :=
  match fuel with
  | O => i
  | S fuel' =>
      if (i <? j)%nat then
        let h := Nat.div2 (i + j) in
        if negb (f h) then Search_loop fuel' f (h + 1) j
        else Search_loop fuel' f i h
      else i
  end.

Definition Search (n : nat) (f : nat -> bool) : nat :=
  Search_loop n f 0 n.

End sort.

(** ** Package [handler]: data *)

(** The anonymous struct of [Config.Paths]. *)
Record PathSpec := mkPathSpec {
  Repo : string;
  Display : string;
  VCS : string
}.

(** [Config].  The two [*int] fields are optional; [Paths], a Go map, is
    given as the sequence of key/value pairs in the order in which the
    [range] statement of [configure] happens to visit them (Go leaves that
    order unspecified, so properties are stated for every order). *)
Record Config := mkConfig {
  Host : string;
  FetchInterval : option Z;
  CacheAge : option Z;
  Paths : list (string * PathSpec)
}.

Record pathConfig := mkPathConfig {
  path : string;
  repo : string;
  display : string;
  vcs : string
}.

Definition pathConfigSet := list pathConfig.

(** [Handler] without its mutex: the three fields guarded by it. *)
Record Handler := mkHandler {
  host : string;
  cacheControl : string;
  paths : pathConfigSet
}.

(** The zero value [Handler{}]. *)
Definition Handler_zero : Handler := mkHandler "" "" [].

Definition pathConfig_zero : pathConfig := mkPathConfig "" "" "" "".

(** ** [pathConfigSet]: [sort.Interface] and [find] *)

(** [pset[i]] *)
Definition at_index (pset : pathConfigSet) (i : nat) : pathConfig :=
  nth i pset pathConfig_zero.

Definition Len (pset : pathConfigSet) : nat := List.length pset.

Definition Less (pset : pathConfigSet) (i j : nat) : bool :=
  (path (at_index pset i) <? path (at_index pset j)).

(** [pset[i] = x]; every use below is within range. *)
Fixpoint set_index (pset : pathConfigSet) (i : nat) (x : pathConfig)
    : pathConfigSet :=
  match pset, i with
  | [], _ => []
  | _ :: rest, O => x :: rest
  | y :: rest, S i' => y :: set_index rest i' x
  end.

(** [pset[i], pset[j] = pset[j], pset[i]]: both values are read before
    either is written. *)
Definition Swap (pset : pathConfigSet) (i j : nat) : pathConfigSet :=
  let pi := at_index pset i in
  let pj := at_index pset j in
  set_index (set_index pset i pj) j pi.

(** The slow path of [find]: the loop [for i := 0; i < max; i++] over the
    entries before the search position, threading [subpath],
    [lenShortestSubpath] and [bestMatchConfig]. *)
Fixpoint find_scan (p : string) (before : list pathConfig)
    (subpath : string) (lenShortestSubpath : nat)
    (bestMatchConfig : option pathConfig) : option pathConfig * string :=
  match before with
  | [] => (bestMatchConfig, subpath)
  | ps :: rest =>
      if (String.length p <=? String.length (path ps))%nat then
        find_scan p rest subpath lenShortestSubpath bestMatchConfig
      else
        let sSubpath := strings.TrimPrefix p (path ps) in
        if (String.length sSubpath <? lenShortestSubpath)%nat then
          find_scan p rest sSubpath (String.length sSubpath) (Some ps)
        else
          find_scan p rest subpath lenShortestSubpath bestMatchConfig
  end.

(** [pathConfigSet.find].  The returned pointer [&pset[i]] is modelled by the
    element it points to: nothing is ever written through it. *)
Definition find (pset : pathConfigSet) (p : string)
    : option pathConfig * string :=
  let i := sort.Search (Len pset)
             (fun i => (p <=? path (at_index pset i))) in
  if (i <? Len pset)%nat && (path (at_index pset i) =? p) then
    (Some (at_index pset i), "")
  else if (0 <? i)%nat
          && strings.HasPrefix p (path (at_index pset (i - 1)) ++ "/") then
    (Some (at_index pset (i - 1)),
     strings.slice_from p (String.length (path (at_index pset (i - 1))) + 1))
  else
    find_scan p (firstn i pset) "" (String.length p) None.

(** ** Package [fmt] and [time], as far as the handler uses them *)

(** The verb [%d] applied to an [int]. *)
Definition fmt_d (n : Z) : string := NilZero.string_of_int (Z.to_int n).

(** Two's-complement wrap-around of [int64] arithmetic. *)
Definition wrap64 (z : Z) : Z :=
  (z + 2 ^ 63) mod 2 ^ 64 - 2 ^ 63.

(** [time.Duration(n) * time.Second], in nanoseconds. *)
Definition seconds (n : Z) : Z := wrap64 (n * 1000000000).

(** ** [Handler.configure] *)

(** A Go [error]: [None] is [nil], [Some msg] an error whose text is [msg]. *)
Definition error := option string.

Definition errNegativeCacheAge : string := "cache_max_age is negative".

Definition errUnknownVCS (key vcs : string) : string :=
  "configuration for " ++ key ++ ": unknown VCS " ++ vcs.

Definition errCannotInferVCS (key repo : string) : string :=
  "configuration for " ++ key ++ ": cannot infer VCS from " ++ repo.

Definition githubPrefix : string := "https://github.com/".
Definition bitbucketPrefix : string := "https://bitbucket.org".

Definition githubDisplay (r : string) : string :=
  r ++ " " ++ r ++ "/tree/master{/dir} " ++ r
    ++ "/blob/master{/dir}/{file}#L{line}".

Definition bitbucketDisplay (r : string) : string :=
  r ++ " " ++ r ++ "/src/default{/dir} " ++ r
    ++ "/src/default{/dir}/{file}#{file}-{line}".

(** The first [switch] of the loop body: the value left in [pc.display]. *)
Definition inferDisplay (e : PathSpec) : string :=
  if negb (Display e =? "") then Display e
  else if strings.HasPrefix (Repo e) githubPrefix then githubDisplay (Repo e)
  else if strings.HasPrefix (Repo e) bitbucketPrefix
       then bitbucketDisplay (Repo e)
  else Display e.

(** The body of [for path, e := range c.Paths], up to the [append]: the
    entry to append, or the error with which [configure] returns. *)
Definition compileEntry (key : string) (e : PathSpec) : pathConfig + string :=
  let pc := mkPathConfig (strings.TrimSuffix key "/") (Repo e)
                         (inferDisplay e) (VCS e) in
  if negb (VCS e =? "") then
    if negb (VCS e =? "bzr") && negb (VCS e =? "git")
       && negb (VCS e =? "hg") && negb (VCS e =? "svn")
    then inr (errUnknownVCS key (VCS e))
    else inl pc
  else if strings.HasPrefix (Repo e) githubPrefix then
    inl (mkPathConfig (path pc) (repo pc) (display pc) "git")
  else inr (errCannotInferVCS key (Repo e)).

(** The [range] loop, run on the handler as it stands: entries are appended
    to [h.paths] one by one, and the first failing entry makes [configure]
    return at once, leaving [h] as it is at that point. *)
Fixpoint configureRange (h : Handler) (kvs : list (string * PathSpec))
    : Handler * error :=
  match kvs with
  | [] => (h, None)
  | (key, e) :: rest =>
      match compileEntry key e with
      | inr err => (h, Some err)
      | inl pc =>
          configureRange
            (mkHandler (host h) (cacheControl h) (paths h ++ [pc])%list) rest
      end
  end.

(** What [sort.Sort] promises of its result, in terms of the set's own
    [Len] and [Less]: the same entries, and at no position an entry that
    is [Less] than one at an earlier position.  The order among entries
    that [Less] does not separate is the algorithm's choice (the sort is
    not stable). *)
Record Sorter := mkSorter {
  Sort : pathConfigSet -> pathConfigSet;
  Sort_Permutation : forall l, Permutation l (Sort l);
  Sort_Sorted :
    forall l i j, i < j -> j < Len (Sort l) -> Less (Sort l) j i = false
}.

Section Configure.

Variable sorter : Sorter.

(** [configure] returns the handler as the call leaves it, and the error. *)
Definition configure (h : Handler) (c : Config) : Handler * error :=
  let cacheAge := 86400%Z in
  let checked : Z + string :=
    match CacheAge c with
    | Some v =>
        if (v <? 0)%Z then inr errNegativeCacheAge
        else if (0 <=? v)%Z then inl v else inl cacheAge
    | None => inl cacheAge
    end in
  match checked with
  | inr err => (h, Some err)
  | inl cacheAge =>
      let h1 := mkHandler (Host c)
                  ("public, max-age=" ++ fmt_d cacheAge) [] in
      match configureRange h1 (Paths c) with
      | (h2, Some err) => (h2, Some err)
      | (h2, None) =>
          (mkHandler (host h2) (cacheControl h2) (Sort sorter (paths h2)),
           None)
      end
  end.

(** ** [NewHandler] and its refresh goroutine *)

(** What one call of [fetcher.Fetch()] returns. *)
Definition Fetched := (Config + string)%type.

(** [NewHandler] up to the [go] statement: the handler and the value of
    [fetchInterval] captured by the goroutine, or the error. *)
Definition NewHandler (first : Fetched) : (Handler * Z) + string :=
  let fetchInterval := 86400%Z in
  match first with
  | inr err => inr err
  | inl config =>
      let fetchInterval :=
        match FetchInterval config with
        | Some v => if (0 <? v)%Z then v else fetchInterval
        | None => fetchInterval
        end in
      match configure Handler_zero config with
      | (_, Some err) => inr err
      | (h, None) => inl (h, fetchInterval)
      end
  end.

(** What the goroutine does besides updating the handler. *)
Inductive Effect :=
| Sleep (nanoseconds : Z)
| Log (msg : string).

(** One turn of the goroutine's [for] loop. *)
Definition refreshTurn (fetchInterval : Z) (h : Handler) (fetched : Fetched)
    : Handler * list Effect :=
  let slept := Sleep (seconds fetchInterval) in
  match fetched with
  | inr err => (h, [slept; Log err])
  | inl config =>
      match configure h config with
      | (h', Some err) => (h', [slept; Log err])
      | (h', None) => (h', [slept])
      end
  end.

(** The first [length fetches] turns of the loop, one per fetch result. *)
Fixpoint refreshLoop (fetchInterval : Z) (h : Handler)
    (fetches : list Fetched) : Handler * list Effect :=
  match fetches with
  | [] => (h, [])
  | fetched :: rest =>
      let (h', log1) := refreshTurn fetchInterval h fetched in
      let (h'', log2) := refreshLoop fetchInterval h' rest in
      (h'', (log1 ++ log2)%list)
  end.

(** ** [Handler.ServeHTTP] *)

Record Request := mkRequest {
  URL_Path : string;
  Req_Host : string
}.

(** A response, as the data handed to the template that renders it. *)
Inductive Response :=
| Index (Host_ : string) (Handlers : list string)
| NotFound
| Vanity (CacheControl Import Subpath Repo_ Display_ VCS_ : string).

Definition getHost (h : Handler) (r : Request) : string :=
  if host h =? "" then Req_Host r else host h.

Definition serveIndex (h : Handler) (r : Request) : Response :=
  let host := getHost h r in
  Index host (map (fun pc => host ++ path pc) (paths h)).

Definition ServeHTTP (h : Handler) (r : Request) : Response :=
  let current := URL_Path r in
  match find (paths h) current with
  | (None, _) =>
      if current =? "/" then serveIndex h r else NotFound
  | (Some pc, subpath) =>
      Vanity (cacheControl h) (getHost h r ++ path pc) subpath
             (repo pc) (display pc) (vcs pc)
  end.

(** ** Requests served while the goroutine reloads

    [ServeHTTP] takes no lock: it reads [h.paths] (in [find]), later
    [h.cacheControl], later [h.host] (in [getHost]).  Between two of these
    reads the refresh goroutine may run [configure].  A request in flight is
    therefore a small machine whose steps are those reads; [configure], which
    holds the mutex throughout, is taken as one step of the other side.

    The machine is coarser than the code: the states [configure] passes
    through while it runs, and the separate reads of [h.host] and [h.paths]
    in [serveIndex], are not told apart.  Every run of the machine is a run
    of the code, not the other way round: it serves to exhibit an
    interleaving, never to exclude one. *)

Inductive ServeState :=
| AtFind
| AtHeader (pc : pathConfig) (subpath : string)
| AtRender (pc : pathConfig) (subpath : string) (header : string)
| Responded (resp : Response).

Definition serveStep (h : Handler) (r : Request) (st : ServeState)
    : ServeState :=
  match st with
  | AtFind =>
      let current := URL_Path r in
      match find (paths h) current with
      | (None, _) =>
          Responded (if current =? "/" then serveIndex h r else NotFound)
      | (Some pc, subpath) => AtHeader pc subpath
      end
  | AtHeader pc subpath => AtRender pc subpath (cacheControl h)
  | AtRender pc subpath header =>
      Responded (Vanity header (getHost h r ++ path pc) subpath
                        (repo pc) (display pc) (vcs pc))
  | Responded resp => Responded resp
  end.

Inductive Action :=
| Serve
| Reload (c : Config).

(** One request against a handler that is reloaded as the schedule says. *)
Fixpoint interleave (h : Handler) (r : Request) (st : ServeState)
    (schedule : list Action) : Handler * ServeState :=
  match schedule with
  | [] => (h, st)
  | Serve :: rest => interleave h r (serveStep h r st) rest
  | Reload c :: rest => interleave (fst (configure h c)) r st rest
  end.

End Configure.

(** ** An instance of [sort.Sort]: insertion sort driven by [Less] *)

Fixpoint insertSorted (x : pathConfig) (l : pathConfigSet) : pathConfigSet :=
  match l with
  | [] => [x]
  | y :: l' =>
      if (path x <? path y) then x :: y :: l' else y :: insertSorted x l'
  end.

Fixpoint insertionSort (l : pathConfigSet) : pathConfigSet :=
  match l with
  | [] => []
  | x :: l' => insertSorted x (insertionSort l')
  end.

(** ** Vocabulary of the properties *)

(** Ascending by [path] in byte order (equal paths allowed). *)
Definition ascending (E : pathConfigSet) : Prop :=
  StronglySorted (fun a b => (path a <=? path b) = true) E.

Definition nonEmptyPaths (E : pathConfigSet) : Prop :=
  Forall (fun e => path e <> "") E.

(** [q] is a proper literal prefix of [p]: [p] is [q] followed by at least
    one more byte, whatever that byte is. *)
Definition properPrefix (p q : string) : Prop :=
  exists t, t <> "" /\ p = q ++ t.

(** Entry [e] matches request path [p] literally. *)
Definition matches (p : string) (e : pathConfig) : Prop :=
  path e = p \/ properPrefix p (path e).

(** Entry [e] is a candidate for request path [p]: its path is [p], or is
    followed in [p] by a slash. *)
Definition candidate (p : string) (e : pathConfig) : Prop :=
  path e = p \/ strings.HasPrefix p (path e ++ "/") = true.

(** The entries compiled before the loop stops, and the error that stops it. *)
Fixpoint compiledPrefix (kvs : list (string * PathSpec))
    : pathConfigSet * error :=
  match kvs with
  | [] => ([], None)
  | (key, e) :: rest =>
      match compileEntry key e with
      | inr err => ([], Some err)
      | inl pc => let (es, err) := compiledPrefix rest in (pc :: es, err)
      end
  end.

(** Entry [kv] passes the loop body. *)
Definition compiles (kv : string * PathSpec) : Prop :=
  exists pc, compileEntry (fst kv) (snd kv) = inl pc.

(** [cache_max_age] is absent or not negative. *)
Definition cacheAgeValid (c : Config) : Prop :=
  forall v, CacheAge c = Some v -> (0 <= v)%Z.

Definition effectiveCacheAge (c : Config) : Z :=
  match CacheAge c with Some v => v | None => 86400%Z end.

(** The values [configure] accepts for [vcs]. *)
Definition knownVCS : list string := ["bzr"; "git"; "hg"; "svn"].

(** [s] contains [sub] as a substring. *)
Definition Contains (s sub : string) : Prop :=
  exists before after, s = before ++ sub ++ after.

(** The keys of the configuration, each with one trailing slash removed. *)
Definition normalisedKeys (c : Config) : list string :=
  map (fun kv => strings.TrimSuffix (fst kv) "/") (Paths c).

(** The durations the goroutine slept for, in order. *)
Fixpoint sleeps (log : list Effect) : list Z :=
  match log with
  | [] => []
  | Sleep d :: rest => d :: sleeps rest
  | Log _ :: rest => sleeps rest
  end.

(** The entry the loop body appends for a key and value that pass. *)
Definition entryOf (kv : string * PathSpec) : pathConfig :=
  match compileEntry (fst kv) (snd kv) with
  | inl pc => pc
  | inr _ => pathConfig_zero
  end.

(** A fetch result that cannot reach the loop of [configure]: the fetch
    failed, or the configuration has a negative [cache_max_age]. *)
Definition stopsBeforeWriting (fetched : Fetched) : Prop :=
  match fetched with
  | inr _ => True
  | inl c => exists v, CacheAge c = Some v /\ (v < 0)%Z
  end.

(** The message logged for such a fetch result. *)
Definition loggedFor (fetched : Fetched) : string :=
  match fetched with
  | inr err => err
  | inl _ => errNegativeCacheAge
  end.

(** ** Sample data *)

Definition entry_a : pathConfig := mkPathConfig "/a" "R1" "" "git".
Definition entry_ab : pathConfig := mkPathConfig "/a/b" "R2" "" "git".

(** The snapshot whose entries are [/a] and [/a/b]. *)
Definition E_ab : pathConfigSet := [entry_a; entry_ab].

(** A handler serving that snapshot. *)
Definition h_active : Handler :=
  mkHandler "example.org" "public, max-age=86400" E_ab.

(** A configuration whose [cache_max_age] is [-1]. *)
Definition cfg_negative_age : Config :=
  mkConfig "other.example" None (Some (-1)%Z)
    [("/y", mkPathSpec "https://example.com/y" "" "")].

(** A configuration with a valid entry and one whose VCS cannot be
    inferred. *)
Definition cfg_uninferable : Config :=
  mkConfig "other.example" None (Some 60%Z)
    [("/ok", mkPathSpec "https://github.com/o/ok" "" "");
     ("/y", mkPathSpec "https://example.com/y" "" "")].

(** Two keys that differ by a trailing slash only. *)
Definition cfg_twin_keys : Config :=
  mkConfig "" None None
    [("/foo", mkPathSpec "R1" "" "git"); ("/foo/", mkPathSpec "R2" "" "git")].

(** The root key, with an explicit VCS and no repository. *)
Definition cfg_root : Config :=
  mkConfig "" None None [("/", mkPathSpec "" "" "git")].

(** A second snapshot for [/a], on another host and cache policy. *)
Definition cfg_second : Config :=
  mkConfig "second.example" None (Some 5%Z)
    [("/a", mkPathSpec "https://github.com/o/a2" "" "")].

(** The snapshot compiled from it. *)
Definition entry_a2 : pathConfig :=
  mkPathConfig "/a" "https://github.com/o/a2"
    (githubDisplay "https://github.com/o/a2") "git".

Definition h_second : Handler :=
  mkHandler "second.example" "public, max-age=5" [entry_a2].

(** Two entries whose VCS cannot be inferred. *)
Definition spec_p : PathSpec := mkPathSpec "https://example.com/p" "" "".
Definition spec_q : PathSpec := mkPathSpec "https://example.com/q" "" "".

(** A start-up configuration whose [fetch_interval] is zero. *)
Definition cfg_zero_interval : Config :=
  mkConfig "" (Some 0%Z) None
    [("/a", mkPathSpec "https://github.com/o/a2" "" "")].

(** A request for [/a] that arrives while the goroutine reloads. *)
Definition request_a : Request := mkRequest "/a" "request.example".

(** A root entry (key ["/"], stored with the empty path) beside [/zz]. *)
Definition entry_empty : pathConfig := mkPathConfig "" "R0" "" "git".

Definition E_root : pathConfigSet :=
  [entry_empty; mkPathConfig "/zz" "R9" "" "git"].

(** The root entry beside [/a]. *)
Definition E_root_a : pathConfigSet :=
  [entry_empty; mkPathConfig "/a" "R1" "" "git"].

(** What the loop body demands of an entry: a known VCS, or none and a
    repository on github. *)
Definition acceptable (e : PathSpec) : Prop :=
  In (VCS e) knownVCS
  \/ (VCS e = "" /\ strings.HasPrefix (Repo e) githubPrefix = true).

(** A fetch result after which the handler holds a whole snapshot: the
    fetch failed, or every entry of the fetched configuration is
    acceptable, so that [configure] either stops at a negative cache age,
    before it writes, or succeeds. *)
Definition reloadable (fetched : Fetched) : Prop :=
  match fetched with
  | inr _ => True
  | inl c => Forall (fun kv => acceptable (snd kv)) (Paths c)
  end.

(** The configuration of [cfg_uninferable] without its failing entry, and
    the same with its two entries in the other order. *)
Definition cfg_pair : Config :=
  mkConfig "pair.example" None (Some 60%Z)
    [("/ok", mkPathSpec "https://github.com/o/ok" "" "");
     ("/hg/", mkPathSpec "https://bitbucket.org/o/hg" "" "hg")].

Definition cfg_pair_reversed : Config :=
  mkConfig "pair.example" None (Some 60%Z)
    [("/hg/", mkPathSpec "https://bitbucket.org/o/hg" "" "hg");
     ("/ok", mkPathSpec "https://github.com/o/ok" "" "")].

Definition h_pair : Handler :=
  mkHandler "pair.example" "public, max-age=60"
    [mkPathConfig "/hg" "https://bitbucket.org/o/hg"
       (bitbucketDisplay "https://bitbucket.org/o/hg") "hg";
     mkPathConfig "/ok" "https://github.com/o/ok"
       (githubDisplay "https://github.com/o/ok") "git"].

(** * Properties *)

(** ** Byte-wise order of strings *)

Section StringOrder.

Lemma ascii_compare_refl (c : ascii) : (c ?= c)%char = Eq.
Proof. unfold Ascii.compare. apply N.compare_refl. Qed.

Lemma ascii_compare_lt_trans (a b c : ascii) :
  (a ?= b)%char = Lt -> (b ?= c)%char = Lt -> (a ?= c)%char = Lt.
Proof.
  unfold Ascii.compare. rewrite !N.compare_lt_iff. lia.
Qed.

Lemma compare_refl (s : string) : (s ?= s) = Eq.
Proof.
  induction s as [|c s IH]; simpl; [reflexivity|].
  now rewrite ascii_compare_refl.
Qed.

Lemma compare_Eq (a b : string) : (a ?= b) = Eq <-> a = b.
Proof.
  split; [apply String.compare_eq_iff | intros ->; apply compare_refl].
Qed.

Lemma compare_lt_trans (a b c : string) :
  (a ?= b) = Lt -> (b ?= c) = Lt -> (a ?= c) = Lt.
Proof.
  revert b c.
  induction a as [|x a IH]; intros [|y b] [|z c]; simpl; try congruence.
  destruct (x ?= y)%char eqn:Hxy; try discriminate.
  - apply Ascii.compare_eq_iff in Hxy; subst y.
    destruct (x ?= z)%char; try congruence. apply IH.
  - intros _.
    destruct (y ?= z)%char eqn:Hyz; try discriminate.
    + apply Ascii.compare_eq_iff in Hyz; subst z. now rewrite Hxy.
    + now rewrite (ascii_compare_lt_trans _ _ _ Hxy Hyz).
Qed.

Lemma ltb_lt (a b : string) : (a <? b) = true <-> (a ?= b) = Lt.
Proof. unfold String.ltb. destruct (a ?= b); intuition congruence. Qed.

Lemma leb_not_gt (a b : string) : (a <=? b) = true <-> (a ?= b) <> Gt.
Proof. unfold String.leb. destruct (a ?= b); intuition congruence. Qed.

(** [!(b < a)] is [a <= b]. *)
Lemma ltb_false_leb (a b : string) : (b <? a) = false <-> (a <=? b) = true.
Proof.
  unfold String.ltb, String.leb. rewrite (String.compare_antisym b a).
  destruct (a ?= b); simpl; intuition congruence.
Qed.

Lemma leb_false_ltb (a b : string) : (a <=? b) = false <-> (b <? a) = true.
Proof.
  unfold String.ltb, String.leb. rewrite (String.compare_antisym b a).
  destruct (a ?= b); simpl; intuition congruence.
Qed.

Lemma leb_cases (a b : string) : (a <=? b) = true <-> (a <? b) = true \/ a = b.
Proof.
  rewrite ltb_lt, leb_not_gt, <- compare_Eq.
  destruct (a ?= b); intuition congruence.
Qed.

Lemma ltb_irrefl (a : string) : (a <? a) = false.
Proof. unfold String.ltb. now rewrite compare_refl. Qed.

Lemma ltb_trans (a b c : string) :
  (a <? b) = true -> (b <? c) = true -> (a <? c) = true.
Proof. rewrite !ltb_lt. apply compare_lt_trans. Qed.

Lemma ltb_asym (a b : string) : (a <? b) = true -> (b <? a) = false.
Proof.
  intros H. destruct (b <? a) eqn:E; [|reflexivity].
  pose proof (ltb_trans _ _ _ H E) as F. now rewrite ltb_irrefl in F.
Qed.

Lemma leb_trans (a b c : string) :
  (a <=? b) = true -> (b <=? c) = true -> (a <=? c) = true.
Proof.
  rewrite !leb_cases. intros [H| ->] [G| ->]; auto.
  left. eapply ltb_trans; eauto.
Qed.

Lemma leb_ltb_trans (a b c : string) :
  (a <=? b) = true -> (b <? c) = true -> (a <? c) = true.
Proof.
  rewrite leb_cases. intros [H| ->] G; auto. eapply ltb_trans; eauto.
Qed.

(** A string is below each of its proper extensions. *)
Lemma compare_app (a t : string) :
  (a ?= a ++ t) = if t =? "" then Eq else Lt.
Proof.
  induction a as [|c a IH]; simpl.
  - now destruct t.
  - now rewrite ascii_compare_refl.
Qed.

Lemma ltb_app (a t : string) : t <> "" -> (a <? a ++ t) = true.
Proof.
  intros Ht. apply ltb_lt. rewrite compare_app.
  apply String.eqb_neq in Ht. now rewrite Ht.
Qed.

End StringOrder.

(** ** [strings]: prefixes, suffixes and slices *)

Section StringSlices.

Lemma length_app (a b : string) :
  String.length (a ++ b) = String.length a + String.length b.
Proof. induction a; simpl; auto. Qed.

Lemma app_empty_r (a : string) : a ++ "" = a.
Proof. induction a; simpl; congruence. Qed.

Lemma app_assoc (a b c : string) : (a ++ b) ++ c = a ++ b ++ c.
Proof. induction a; simpl; congruence. Qed.

Lemma length_zero (a : string) : String.length a = 0 <-> a = "".
Proof. destruct a; simpl; split; congruence. Qed.

Lemma slice_from_app (a b : string) :
  strings.slice_from (a ++ b) (String.length a) = b.
Proof. induction a; simpl; auto. Qed.

Lemma slice_to_app (a b : string) :
  strings.slice_to (a ++ b) (String.length a) = a.
Proof. induction a; simpl; congruence. Qed.

Lemma slice_to_from (s : string) (n : nat) :
  strings.slice_to s n ++ strings.slice_from s n = s.
Proof.
  revert s; induction n as [|n IH]; intros [|c s]; simpl; auto.
  now rewrite IH.
Qed.

Lemma length_slice_to (s : string) (n : nat) :
  n <= String.length s -> String.length (strings.slice_to s n) = n.
Proof.
  revert s; induction n as [|n IH]; intros [|c s]; simpl; auto; try lia.
  intros H. rewrite IH; lia.
Qed.

Lemma HasPrefix_iff (s pre : string) :
  strings.HasPrefix s pre = true <-> exists t, s = pre ++ t.
Proof.
  unfold strings.HasPrefix. rewrite andb_true_iff, Nat.leb_le, String.eqb_eq.
  split.
  - intros [_ H]. exists (strings.slice_from s (String.length pre)).
    rewrite <- H at 1. symmetry. apply slice_to_from.
  - intros [t ->]. rewrite length_app, slice_to_app. split; [lia | auto].
Qed.

Lemma HasSuffix_iff (s suf : string) :
  strings.HasSuffix s suf = true <-> exists t, s = t ++ suf.
Proof.
  unfold strings.HasSuffix. rewrite andb_true_iff, Nat.leb_le, String.eqb_eq.
  split.
  - intros [_ H].
    exists (strings.slice_to s (String.length s - String.length suf)).
    rewrite <- H at 2. symmetry. apply slice_to_from.
  - intros [t ->]. rewrite length_app.
    replace (String.length t + String.length suf - String.length suf)
      with (String.length t) by lia.
    rewrite slice_from_app. split; [lia | auto].
Qed.

Lemma TrimPrefix_app (pre t : string) : strings.TrimPrefix (pre ++ t) pre = t.
Proof.
  unfold strings.TrimPrefix.
  replace (strings.HasPrefix (pre ++ t) pre) with true
    by (symmetry; apply HasPrefix_iff; eauto).
  apply slice_from_app.
Qed.

Lemma TrimPrefix_other (s pre : string) :
  strings.HasPrefix s pre = false -> strings.TrimPrefix s pre = s.
Proof. unfold strings.TrimPrefix. now intros ->. Qed.

Lemma TrimSuffix_app (t suf : string) : strings.TrimSuffix (t ++ suf) suf = t.
Proof.
  unfold strings.TrimSuffix.
  replace (strings.HasSuffix (t ++ suf) suf) with true
    by (symmetry; apply HasSuffix_iff; eauto).
  rewrite length_app.
  replace (String.length t + String.length suf - String.length suf)
    with (String.length t) by lia.
  apply slice_to_app.
Qed.

Lemma TrimSuffix_other (s suf : string) :
  strings.HasSuffix s suf = false -> strings.TrimSuffix s suf = s.
Proof. unfold strings.TrimSuffix. now intros ->. Qed.

(** Of two prefixes of one string, the shorter is a prefix of the longer. *)
Lemma prefixes_nest (a b ta tb : string) :
  a ++ ta = b ++ tb -> String.length a <= String.length b ->
  exists u, b = a ++ u.
Proof.
  revert b; induction a as [|c a IH]; intros b H L.
  - exists b. reflexivity.
  - destruct b as [|d b]; simpl in *; [lia|].
    injection H as -> H. destruct (IH b H) as [u ->]; [lia|].
    now exists u.
Qed.

Lemma app_inv_head (a t u : string) : a ++ t = a ++ u -> t = u.
Proof. induction a; simpl; intros H; [auto | injection H; auto]. Qed.

End StringSlices.

(** ** [sort.Search] finds the boundary of a monotone predicate *)

Section Search.

Variable n : nat.
Variable f : nat -> bool.
Hypothesis f_monotone :
  forall a b, a <= b -> b < n -> f a = true -> f b = true.

Lemma Search_loop_spec (fuel i j : nat) :
  i <= j -> j <= n -> j - i <= fuel ->
  (forall k, k < i -> f k = false) ->
  (forall k, j <= k -> k < n -> f k = true) ->
  let r := sort.Search_loop fuel f i j in
  r <= n
  /\ (forall k, k < r -> f k = false)
  /\ (forall k, r <= k -> k < n -> f k = true).
Proof.
  revert i j.
  induction fuel as [|fuel IH]; intros i j Hij Hjn Hfuel Hlo Hhi; simpl.
  - assert (i = j) by lia. subst j. repeat split; auto; lia.
  - destruct (i <? j)%nat eqn:Elt.
    + apply Nat.ltb_lt in Elt.
      assert (Hh : i <= Nat.div2 (i + j) < j)
        by (rewrite Nat.div2_div;
            pose proof (Nat.div_mod_eq (i + j) 2);
            pose proof (Nat.mod_upper_bound (i + j) 2); lia).
      destruct (f (Nat.div2 (i + j))) eqn:Efh; simpl.
      * apply IH; try lia; auto.
        intros k Hk Hkn. apply (f_monotone (a := Nat.div2 (i + j))); auto.
      * apply IH; try lia; auto.
        intros k Hk. destruct (f k) eqn:Efk; [|reflexivity].
        rewrite <- Efh. symmetry.
        apply (f_monotone (a := k)); auto; lia.
    + apply Nat.ltb_ge in Elt. assert (i = j) by lia. subst j.
      repeat split; auto; lia.
Qed.

Lemma Search_spec :
  let r := sort.Search n f in
  r <= n
  /\ (forall k, k < r -> f k = false)
  /\ (forall k, r <= k -> k < n -> f k = true).
Proof.
  unfold sort.Search. apply Search_loop_spec; intros; lia.
Qed.

End Search.

(** ** Sorted entry sets *)

Section SortedLists.

Variable A : Type.
Variable R : A -> A -> Prop.

Lemma StronglySorted_nth (d : A) (l : list A) :
  StronglySorted R l ->
  forall i j, i < j -> j < List.length l -> R (nth i l d) (nth j l d).
Proof.
  induction 1 as [|a l Hl IH Ha]; intros i j Hij Hj; simpl in *; [lia|].
  destruct j as [|j]; [lia|]. destruct i as [|i].
  - rewrite Forall_forall in Ha. apply Ha, nth_In. lia.
  - apply IH; lia.
Qed.

Lemma nth_StronglySorted (d : A) (l : list A) :
  (forall i j, i < j -> j < List.length l -> R (nth i l d) (nth j l d)) ->
  StronglySorted R l.
Proof.
  induction l as [|a l IH]; intros H; constructor.
  - apply IH. intros i j Hij Hj.
    apply (H (S i) (S j)); simpl; lia.
  - apply Forall_forall. intros x Hx.
    destruct (In_nth l x d Hx) as (k & Hk & <-).
    apply (H 0 (S k)); simpl; lia.
Qed.

Lemma nth_In_firstn (d : A) (l : list A) (r k : nat) :
  k < r -> k < List.length l -> In (nth k l d) (firstn r l).
Proof.
  intros Hr Hk.
  replace (nth k l d) with (nth k (firstn r l) d).
  - apply nth_In. rewrite length_firstn. lia.
  - rewrite nth_firstn. apply Nat.ltb_lt in Hr. now rewrite Hr.
Qed.

Lemma In_firstn (l : list A) (r : nat) (x : A) :
  In x (firstn r l) -> In x l.
Proof.
  intros H. rewrite <- (firstn_skipn r l). apply in_or_app. now left.
Qed.

End SortedLists.

Lemma properPrefix_length (p q : string) :
  properPrefix p q -> String.length q < String.length p.
Proof.
  intros (t & Ht & ->). rewrite length_app.
  destruct t; simpl; [congruence | lia].
Qed.

Lemma properPrefix_ltb (p q : string) : properPrefix p q -> (q <? p) = true.
Proof. intros (t & Ht & ->). now apply ltb_app. Qed.

(** Of two literal prefixes of [p], the one that comes first in byte order
    is the shorter. *)
Lemma prefixes_ordered_by_length (p a b : string) :
  properPrefix p a -> properPrefix p b -> (a <=? b) = true ->
  String.length a <= String.length b.
Proof.
  intros (ta & _ & Ha) (tb & _ & Hb) Hle.
  destruct (Nat.le_gt_cases (String.length a) (String.length b)) as [|Hgt]; auto.
  destruct (@prefixes_nest b a tb ta) as [u Hu]; [congruence | lia |].
  assert (u <> "") by (intros ->; rewrite app_empty_r in Hu; subst; lia).
  apply ltb_false_leb in Hle. subst a. rewrite ltb_app in Hle; congruence.
Qed.

(** ** The slow path of [find] *)

Section Scan.

Variable p : string.

(** What the loop body selects: a non-empty proper literal prefix of [p]
    whose residue is shorter than the best so far. *)
Lemma scan_selects (ps : pathConfig) (n : nat) :
  n <= String.length p ->
  ((String.length p <=? String.length (path ps))%nat = false
   /\ (String.length (strings.TrimPrefix p (path ps)) <? n)%nat = true)
  <->
  (path ps <> "" /\ properPrefix p (path ps)
   /\ String.length p - String.length (path ps) < n).
Proof.
  intros Hn. rewrite Nat.leb_gt, Nat.ltb_lt. split.
  - intros [Hlen Hsel].
    destruct (strings.HasPrefix p (path ps)) eqn:Epre.
    + apply HasPrefix_iff in Epre. destruct Epre as [t Ht].
      rewrite Ht, TrimPrefix_app in Hsel.
      rewrite Ht, length_app in *.
      repeat split.
      * intros Hq. apply length_zero in Hq. lia.
      * exists t. split; auto. intros ->. simpl in *. lia.
      * lia.
    + rewrite TrimPrefix_other in Hsel by assumption. lia.
  - intros (Hne & (t & Ht & Hp) & Hres).
    rewrite Hp, TrimPrefix_app. rewrite Hp, length_app in *.
    assert (String.length t <> 0) by (rewrite length_zero; auto).
    lia.
Qed.

(** The loop body leaves its state alone: [ps] is not selected, so the
    outcome on [ps :: rest] is the outcome on [rest]. *)
Ltac scan_skips ps n Hsel IHrest :=
  let Hno := fresh "Hno" in
  assert (Hno : ~ (path ps <> "" /\ properPrefix p (path ps)
                   /\ String.length p - String.length (path ps) < n))
    by (let H := fresh in
        intros H; apply Hsel in H; destruct H; congruence);
  let Hb := fresh "Hb" in
  let Hrest := fresh "Hrest" in
  let e := fresh "e" in
  destruct IHrest as [[Hb Hrest]|(e & Hb & ? & ? & ? & ? & Hrest)];
  [ left; split; [exact Hb|];
    intros c [<-|Hc] Hcn Hcp; [|now apply Hrest];
    apply Nat.nlt_ge; intros Hlt; apply Hno; auto
  | right; exists e; repeat split; auto;
    intros c [<-|Hc] Hcn Hcp; [|now apply Hrest];
    apply properPrefix_length in Hcp as Hl;
    assert (~ String.length p - String.length (path ps) < n)
      by (intros Hlt'; apply Hno; auto);
    lia ].

Lemma find_scan_spec (before : list pathConfig) :
  forall (sub : string) (n : nat) (best : option pathConfig),
  n <= String.length p ->
  let best' := fst (find_scan p before sub n best) in
  (best' = best
   /\ forall c, In c before -> path c <> "" -> properPrefix p (path c) ->
                n <= String.length p - String.length (path c))
  \/ (exists e, best' = Some e /\ In e before
        /\ path e <> "" /\ properPrefix p (path e)
        /\ String.length p - String.length (path e) < n
        /\ forall c, In c before -> path c <> "" ->
                     properPrefix p (path c) ->
                     String.length (path c) <= String.length (path e)).
Proof.
  induction before as [|ps rest IH]; intros sub n best Hn; simpl.
  - left. split; [reflexivity | intros c []].
  - pose proof (scan_selects ps Hn) as Hsel.
    destruct (String.length p <=? String.length (path ps))%nat eqn:Elen;
      [|destruct (String.length (strings.TrimPrefix p (path ps)) <? n)%nat
          eqn:Eshort].
    + (* continue *)
      scan_skips ps n Hsel (IH sub n best Hn).
    + (* a new best match *)
      destruct Hsel as [Hsel _]. destruct (Hsel (conj eq_refl eq_refl))
        as (Hne & Hpre & Hres).
      assert (Hlen : String.length (strings.TrimPrefix p (path ps))
                     = String.length p - String.length (path ps)).
      { destruct Hpre as (t & _ & Hp). rewrite Hp at 1.
        rewrite TrimPrefix_app, Hp, length_app. lia. }
      rewrite Hlen.
      destruct (IH (strings.TrimPrefix p (path ps))
                   (String.length p - String.length (path ps)) (Some ps))
        as [[Hb Hall]|(e & Hb & Hin & Hne' & Hpre' & Hlt & Hmax)]; [lia| |].
      * right. exists ps. repeat split; auto.
        intros c [<-|Hc] Hcn Hcp; auto.
        specialize (Hall c Hc Hcn Hcp).
        apply properPrefix_length in Hcp. lia.
      * right. exists e. repeat split; auto; [lia|].
        intros c [<-|Hc] Hcn Hcp; auto.
        apply properPrefix_length in Hcp, Hpre'. lia.
    + (* not shorter than the best so far *)
      scan_skips ps n Hsel (IH sub n best Hn).
Qed.

End Scan.

(** ** [find] on an ascending entry set *)

Section Find.

Variable E : pathConfigSet.
Variable p : string.
Hypothesis E_ascending : ascending E.

Let probe (i : nat) : bool := (p <=? path (at_index E i)).
Let r : nat := sort.Search (Len E) probe.

Lemma ascending_at (i j : nat) :
  i <= j -> j < Len E ->
  (path (at_index E i) <=? path (at_index E j)) = true.
Proof.
  intros Hij Hj. destruct (Nat.eq_dec i j) as [->|Hne].
  - apply leb_cases. now right.
  - apply (StronglySorted_nth pathConfig_zero E_ascending); [lia | exact Hj].
Qed.

Lemma probe_monotone (a b : nat) :
  a <= b -> b < Len E -> probe a = true -> probe b = true.
Proof.
  unfold probe. intros Hab Hb Ha.
  eapply leb_trans; [exact Ha | now apply ascending_at].
Qed.

Lemma search_bounds :
  r <= Len E
  /\ (forall k, k < r -> (path (at_index E k) <? p) = true)
  /\ (forall k, r <= k -> k < Len E -> (p <=? path (at_index E k)) = true).
Proof.
  destruct (Search_spec probe probe_monotone) as (Hr & Hlo & Hhi).
  fold r in Hr, Hlo, Hhi. repeat split; auto.
  intros k Hk. apply leb_false_ltb. now apply Hlo.
Qed.

(** Every entry that is a proper prefix of [p] sits before the search
    position. *)
Lemma prefix_before_search (k : nat) :
  k < Len E -> properPrefix p (path (at_index E k)) -> k < r.
Proof.
  intros Hk Hpre. destruct search_bounds as (_ & _ & Hhi).
  destruct (Nat.lt_ge_cases k r) as [|Hge]; auto.
  apply properPrefix_ltb in Hpre.
  pose proof (leb_ltb_trans _ _ _ (Hhi k Hge Hk) Hpre) as F.
  now rewrite ltb_irrefl in F.
Qed.

(** An entry equal to [p], if there is one, is found at the search
    position. *)
Lemma exact_at_search (k : nat) :
  k < Len E -> path (at_index E k) = p ->
  r < Len E /\ path (at_index E r) = p.
Proof.
  intros Hk Heq. destruct search_bounds as (_ & Hlo & Hhi).
  assert (Hge : r <= k).
  { destruct (Nat.lt_ge_cases k r) as [Hlt|]; auto.
    specialize (Hlo k Hlt). rewrite Heq, ltb_irrefl in Hlo. discriminate. }
  split; [lia|]. apply String.leb_antisym.
  - rewrite <- Heq. apply ascending_at; auto.
  - apply Hhi; lia.
Qed.

(** The outcome of [find], entry by entry: the entry returned matches [p]
    literally and no matching entry with a non-empty path is longer; when
    nothing is returned, no entry with a non-empty path matches. *)
Lemma find_spec :
  match fst (find E p) with
  | Some e =>
      In e E /\ matches p e
      /\ forall c, In c E -> matches p c ->
                   String.length (path c) <= String.length (path e)
  | None => forall c, In c E -> path c <> "" -> ~ matches p c
  end.
Proof.
  destruct search_bounds as (Hr & Hlo & Hhi).
  unfold find. fold probe. fold r.
  destruct ((r <? Len E)%nat && (path (at_index E r) =? p)) eqn:Eexact.
  { (* exact match *)
    apply andb_true_iff in Eexact. destruct Eexact as [Hrn Heq].
    apply Nat.ltb_lt in Hrn. apply String.eqb_eq in Heq. simpl.
    split; [apply nth_In; exact Hrn|]. split; [now left|].
    intros c _ [Hc|Hc]; [rewrite Hc, Heq; lia|].
    apply properPrefix_length in Hc. rewrite Heq. lia. }
  assert (Hnoexact : forall c, In c E -> path c <> p).
  { intros c Hc Heq.
    destruct (In_nth E c pathConfig_zero Hc) as (k & Hk & Hnth).
    destruct (@exact_at_search k Hk) as [Hrn Hreq];
      [unfold at_index; now rewrite Hnth|].
    apply Nat.ltb_lt in Hrn. apply String.eqb_eq in Hreq.
    rewrite Hrn, Hreq in Eexact. discriminate. }
  assert (Hbefore : forall c, In c E -> properPrefix p (path c) ->
            exists k, k < r /\ k < Len E /\ at_index E k = c).
  { intros c Hc Hpre.
    destruct (In_nth E c pathConfig_zero Hc) as (k & Hk & Hnth).
    exists k. repeat split; auto.
    apply prefix_before_search; auto. unfold at_index. now rewrite Hnth. }
  destruct ((0 <? r)%nat
            && strings.HasPrefix p (path (at_index E (r - 1)) ++ "/"))
    eqn:Eparent.
  { (* parent-prefix match *)
    apply andb_true_iff in Eparent. destruct Eparent as [Hpos Hpre].
    apply Nat.ltb_lt in Hpos. apply HasPrefix_iff in Hpre.
    destruct Hpre as [t Ht]. rewrite app_assoc in Ht. simpl.
    assert (Hparent : properPrefix p (path (at_index E (r - 1))))
      by (exists ("/" ++ t); split; [discriminate | exact Ht]).
    split; [apply nth_In; unfold Len in *; lia|]. split; [now right|].
    intros c Hc [Heq|Hcp]; [now apply Hnoexact in Heq|].
    destruct (Hbefore c Hc Hcp) as (k & Hkr & Hk & <-).
    apply prefixes_ordered_by_length with (p := p); auto.
    apply ascending_at; unfold Len in *; lia. }
  (* slow path *)
  destruct (@find_scan_spec p (firstn r E) "" (String.length p) None
              (le_n _)) as [[Hb Hall]|(e & Hb & Hin & Hne & Hpre & _ & Hmax)].
  - rewrite Hb. intros c Hc Hcn [Heq|Hcp]; [now apply Hnoexact in Heq|].
    destruct (Hbefore c Hc Hcp) as (k & Hkr & Hk & <-).
    specialize (Hall _ (nth_In_firstn pathConfig_zero E Hkr Hk) Hcn Hcp).
    apply properPrefix_length in Hcp. apply Hcn, length_zero.
    unfold at_index in *. lia.
  - rewrite Hb. split; [eapply In_firstn; eauto|]. split; [now right|].
    intros c Hc [Heq|Hcp]; [now apply Hnoexact in Heq|].
    destruct (string_dec (path c) "") as [Hempty|Hcn];
      [rewrite Hempty; simpl; lia|].
    destruct (Hbefore c Hc Hcp) as (k & Hkr & Hk & <-).
    apply Hmax; auto. apply nth_In_firstn; auto.
Qed.

End Find.

(** ** Insertion sort meets the contract of [sort.Sort] *)

Lemma insertSorted_Permutation (x : pathConfig) (l : pathConfigSet) :
  Permutation (x :: l) (insertSorted x l).
Proof.
  induction l as [|y l IH]; simpl; [reflexivity|].
  destruct (path x <? path y); [reflexivity|].
  rewrite perm_swap. now constructor.
Qed.

Lemma insertionSort_Permutation (l : pathConfigSet) :
  Permutation l (insertionSort l).
Proof.
  induction l as [|x l IH]; simpl; [constructor|].
  rewrite <- insertSorted_Permutation. now constructor.
Qed.

Lemma insertSorted_Sorted (x : pathConfig) (l : pathConfigSet) :
  StronglySorted (fun a b => (path b <? path a) = false) l ->
  StronglySorted (fun a b => (path b <? path a) = false) (insertSorted x l).
Proof.
  induction 1 as [|y l Hl IH Hy]; simpl.
  - repeat constructor.
  - destruct (path x <? path y) eqn:Exy.
    + constructor; [now constructor|]. constructor.
      * now apply ltb_asym.
      * eapply Forall_impl; [|exact Hy]. intros c Hc. simpl in Hc.
        apply ltb_false_leb. apply ltb_false_leb in Hc.
        eapply leb_trans; [|exact Hc].
        apply leb_cases. now left.
    + constructor; [exact IH|].
      rewrite <- (insertSorted_Permutation x l). now constructor.
Qed.

Lemma insertionSort_Sorted (l : pathConfigSet) :
  StronglySorted (fun a b => (path b <? path a) = false) (insertionSort l).
Proof.
  induction l as [|x l IH]; simpl; [constructor|].
  now apply insertSorted_Sorted.
Qed.

Lemma insertionSort_Less (l : pathConfigSet) (i j : nat) :
  i < j -> j < Len (insertionSort l) -> Less (insertionSort l) j i = false.
Proof.
  intros Hij Hj. unfold Less, at_index.
  exact (StronglySorted_nth pathConfig_zero (insertionSort_Sorted l) Hij Hj).
Qed.

Definition insertionSorter : Sorter :=
  mkSorter insertionSort insertionSort_Permutation insertionSort_Less.

(** ** The [range] loop of [configure], entry by entry *)

Lemma configureRange_compiledPrefix (kvs : list (string * PathSpec)) :
  forall h,
  configureRange h kvs =
  (mkHandler (host h) (cacheControl h)
             (paths h ++ fst (compiledPrefix kvs))%list,
   snd (compiledPrefix kvs)).
Proof.
  induction kvs as [|[key e] rest IH]; intros h; simpl.
  - rewrite List.app_nil_r. now destruct h.
  - destruct (compileEntry key e) as [pc|err]; simpl.
    + rewrite IH. simpl. destruct (compiledPrefix rest) as [es err]. simpl.
      now rewrite <- List.app_assoc.
    + rewrite List.app_nil_r. now destruct h.
Qed.

Lemma compiledPrefix_ok (kvs : list (string * PathSpec)) :
  snd (compiledPrefix kvs) = None ->
  Forall2 (fun kv pc => compileEntry (fst kv) (snd kv) = inl pc)
          kvs (fst (compiledPrefix kvs)).
Proof.
  induction kvs as [|[key e] rest IH]; simpl; [constructor|].
  destruct (compileEntry key e) as [pc|err] eqn:Ec; simpl; [|discriminate].
  destruct (compiledPrefix rest) as [es err]; simpl in *.
  intros ->. constructor; auto.
Qed.

Lemma compiledPrefix_first_failure
    (l1 l2 : list (string * PathSpec)) (key : string) (e : PathSpec)
    (msg : string) :
  Forall compiles l1 -> compileEntry key e = inr msg ->
  snd (compiledPrefix (l1 ++ (key, e) :: l2)) = Some msg.
Proof.
  intros Hl1 Hfail. induction Hl1 as [|[k1 e1] l1 [pc Hpc] _ IH]; simpl.
  - now rewrite Hfail.
  - simpl in Hpc. rewrite Hpc.
    destruct (compiledPrefix (l1 ++ (key, e) :: l2)). exact IH.
Qed.

Lemma compiledPrefix_any_failure
    (kvs : list (string * PathSpec)) (key : string) (e : PathSpec)
    (msg : string) :
  In (key, e) kvs -> compileEntry key e = inr msg ->
  snd (compiledPrefix kvs) <> None.
Proof.
  intros Hin Hfail. induction kvs as [|[k1 e1] rest IH]; simpl; [easy|].
  destruct (compileEntry k1 e1) as [pc|err] eqn:Ec; simpl; [|discriminate].
  destruct Hin as [Heq|Hin].
  - injection Heq as -> ->. congruence.
  - specialize (IH Hin). now destruct (compiledPrefix rest).
Qed.

Section ConfigureFacts.

Variable sorter : Sorter.

Lemma configure_negative (h : Handler) (c : Config) (v : Z) :
  CacheAge c = Some v -> (v < 0)%Z ->
  configure sorter h c = (h, Some errNegativeCacheAge).
Proof.
  intros Hc Hv. unfold configure. rewrite Hc.
  apply Z.ltb_lt in Hv. now rewrite Hv.
Qed.

Lemma configure_valid (h : Handler) (c : Config) :
  cacheAgeValid c ->
  configure sorter h c =
  let control := "public, max-age=" ++ fmt_d (effectiveCacheAge c) in
  match compiledPrefix (Paths c) with
  | (es, Some err) => (mkHandler (Host c) control es, Some err)
  | (es, None) => (mkHandler (Host c) control (Sort sorter es), None)
  end.
Proof.
  intros Hvalid. unfold configure, effectiveCacheAge.
  destruct (CacheAge c) as [v|] eqn:Ec.
  - specialize (Hvalid v Ec).
    destruct (v <? 0)%Z eqn:Eneg; [apply Z.ltb_lt in Eneg; lia|].
    destruct (0 <=? v)%Z eqn:Epos; [|apply Z.leb_gt in Epos; lia].
    rewrite configureRange_compiledPrefix. simpl.
    now destruct (compiledPrefix (Paths c)) as [es [err|]].
  - rewrite configureRange_compiledPrefix. simpl.
    now destruct (compiledPrefix (Paths c)) as [es [err|]].
Qed.

(** A successful [configure] went through every entry and sorted the result. *)
Lemma configure_success (h h' : Handler) (c : Config) :
  configure sorter h c = (h', None) ->
  cacheAgeValid c
  /\ snd (compiledPrefix (Paths c)) = None
  /\ h' = mkHandler (Host c)
            ("public, max-age=" ++ fmt_d (effectiveCacheAge c))
            (Sort sorter (fst (compiledPrefix (Paths c)))).
Proof.
  intros H.
  assert (Hvalid : cacheAgeValid c).
  { intros v Hv. destruct (Z.lt_ge_cases v 0) as [Hneg|]; [|assumption].
    rewrite (configure_negative h c Hv Hneg) in H. discriminate. }
  split; [exact Hvalid|].
  rewrite (configure_valid h Hvalid) in H. simpl in H.
  destruct (compiledPrefix (Paths c)) as [es [err|]]; simpl;
    [discriminate|].
  injection H as <-. auto.
Qed.

End ConfigureFacts.

(** * The resolver *)

Lemma candidate_matches (p : string) (e : pathConfig) :
  candidate p e -> matches p e.
Proof.
  intros [Heq|Hpre]; [now left|]. right.
  apply HasPrefix_iff in Hpre. destruct Hpre as [t Ht].
  rewrite app_assoc in Ht. exists ("/" ++ t). split; [discriminate|exact Ht].
Qed.

(** C1.  On a sorted set, an entry that [find] returns is an entry of the
    set and, when it is a candidate, no candidate is longer; and [find]
    returns some entry whenever a candidate with a non-empty path exists.
    But the slow path cuts the entry's path off the request path without
    asking for a slash behind it, where the parent-prefix test asks for
    one.  So with the single entry [/a], the request path [/ab] resolves
    to [/a], which is no candidate, and is served the page of [/a]; with
    entries [/a] and [/a/b], the request path [/a/bc] resolves to [/a/b],
    no candidate either, rather than to its parent [/a]; and with the
    root entry beside [/a], the request path [/b] resolves to nothing
    although the root entry is a candidate, while [/0x], which sorts
    before [/a], resolves to the root entry. *)
Theorem C1_slow_path_ignores_the_slash :
  (forall E p e sub,
     ascending E -> find E p = (Some e, sub) ->
     In e E
     /\ (candidate p e ->
         forall c, In c E -> candidate p c ->
                   String.length (path c) <= String.length (path e)))
  /\ (forall E p c,
        ascending E -> In c E -> candidate p c -> path c <> "" ->
        exists e sub, find E p = (Some e, sub))
  /\ (ascending [entry_a]
      /\ find [entry_a] "/ab" = (Some entry_a, "b")
      /\ ~ candidate "/ab" entry_a
      /\ ServeHTTP (mkHandler "" "" [entry_a]) (mkRequest "/ab" "example.org")
         = Vanity "" "example.org/a" "b" "R1" "" "git")
  /\ (ascending E_ab
      /\ find E_ab "/a/bc" = (Some entry_ab, "c")
      /\ ~ candidate "/a/bc" entry_ab
      /\ candidate "/a/bc" entry_a)
  /\ (ascending E_root_a /\ In entry_empty E_root_a
      /\ candidate "/b" entry_empty
      /\ find E_root_a "/b" = (None, "")
      /\ find E_root_a "/0x" = (Some entry_empty, "0x")).
Proof.
  split; [|split; [|split; [|split]]].
  - intros E p e sub Hasc Hfind. pose proof (find_spec p Hasc) as Hspec.
    rewrite Hfind in Hspec. simpl in Hspec.
    destruct Hspec as (Hin & _ & Hmax). split; [exact Hin|].
    intros _ c Hc Hcand. apply Hmax; [exact Hc|].
    now apply candidate_matches.
  - intros E p c Hasc Hin Hcand Hne. pose proof (find_spec p Hasc) as Hspec.
    destruct (find E p) as [[e|] sub]; [eauto|]. simpl in Hspec.
    exfalso. apply (Hspec c Hin Hne). now apply candidate_matches.
  - split; [repeat constructor|]. split; [reflexivity|].
    split; [|reflexivity]. intros [H|H]; discriminate.
  - split; [repeat constructor|]. split; [reflexivity|].
    split; [intros [H|H]; discriminate|]. right. reflexivity.
  - split; [repeat constructor|]. split; [now left|].
    split; [right; reflexivity|]. split; reflexivity.
Qed.

(** C3.  On the snapshot with entries [/a] and [/a/b]: [/a/b/c] resolves to
    [/a/b] with subpath [c]; [/z] resolves to nothing; a request for [/]
    that resolves to nothing is answered with the index.  But [/a/x]
    resolves to [/a] with subpath [/x], leading slash included (the slow
    path cuts off the entry's path only), where the parent-prefix path would
    have cut the separator too, as it does once [/a/b] is absent. *)
Theorem C3_snapshot_a_ab :
  find E_ab "/a/b/c" = (Some entry_ab, "c")
  /\ find E_ab "/z" = (None, "")
  /\ (forall h r, URL_Path r = "/" -> fst (find (paths h) "/") = None ->
        ServeHTTP h r = serveIndex h r)
  /\ ServeHTTP (mkHandler "" "" E_ab) (mkRequest "/" "example.org")
     = Index "example.org" ["example.org/a"; "example.org/a/b"]
  /\ find E_ab "/a/x" = (Some entry_a, "/x")
  /\ find [entry_a] "/a/x" = (Some entry_a, "x")
  /\ ServeHTTP (mkHandler "" "" E_ab) (mkRequest "/a/x" "example.org")
     = Vanity "" "example.org/a" "/x" "R1" "" "git".
Proof.
  repeat split; try reflexivity.
  intros h r Hp Hnone. unfold ServeHTTP. rewrite Hp.
  destruct (find (paths h) "/") as [[pc|] sub]; simpl in *;
    [discriminate | reflexivity].
Qed.

(** * The configuration compiler *)

(** ** What the loop body accepts and what it rejects *)

Lemma compileEntry_ok (key : string) (e : PathSpec) (pc : pathConfig) :
  compileEntry key e = inl pc ->
  path pc = strings.TrimSuffix key "/"
  /\ repo pc = Repo e
  /\ display pc = inferDisplay e
  /\ In (vcs pc) knownVCS
  /\ ((VCS e <> "" /\ vcs pc = VCS e)
      \/ (VCS e = "" /\ vcs pc = "git"
          /\ strings.HasPrefix (Repo e) githubPrefix = true)).
Proof.
  unfold compileEntry, knownVCS.
  destruct (VCS e =? "") eqn:Eempty; simpl.
  - apply String.eqb_eq in Eempty.
    destruct (strings.HasPrefix (Repo e) githubPrefix) eqn:Egh;
      [|discriminate].
    intros H; injection H as <-. simpl. intuition.
  - apply String.eqb_neq in Eempty.
    destruct (VCS e =? "bzr") eqn:E1; destruct (VCS e =? "git") eqn:E2;
      destruct (VCS e =? "hg") eqn:E3; destruct (VCS e =? "svn") eqn:E4;
      simpl; try discriminate;
      intros H; injection H as <-; simpl;
      rewrite ?String.eqb_eq in *; intuition.
Qed.

Lemma compileEntry_infer_git (key : string) (e : PathSpec) :
  VCS e = "" -> strings.HasPrefix (Repo e) githubPrefix = true ->
  compileEntry key e
  = inl (mkPathConfig (strings.TrimSuffix key "/") (Repo e)
           (if Display e =? "" then githubDisplay (Repo e) else Display e)
           "git").
Proof.
  intros Hv Hgh. unfold compileEntry, inferDisplay. rewrite Hv, Hgh. simpl.
  now destruct (Display e =? "").
Qed.

Lemma compileEntry_cannot_infer (key : string) (e : PathSpec) :
  VCS e = "" -> strings.HasPrefix (Repo e) githubPrefix = false ->
  compileEntry key e = inr (errCannotInferVCS key (Repo e)).
Proof.
  intros Hv Hgh. unfold compileEntry. now rewrite Hv, Hgh.
Qed.

(** The stored path is empty exactly for the keys [""] and ["/"]. *)
Lemma TrimSuffix_slash_empty (key : string) :
  strings.TrimSuffix key "/" = "" <-> key = "" \/ key = "/".
Proof.
  destruct (strings.HasSuffix key "/") eqn:Esuf.
  - apply HasSuffix_iff in Esuf. destruct Esuf as [t ->].
    rewrite TrimSuffix_app. split.
    + intros ->. now right.
    + intros [H|H]; destruct t as [|c [|d t]]; simpl in H; congruence.
  - rewrite TrimSuffix_other by assumption. split; [now left|].
    intros [H|H]; [exact H|]. subst key. discriminate.
Qed.

Lemma HasPrefix_nonempty (s pre : string) :
  strings.HasPrefix s pre = true -> pre <> "" -> s <> "".
Proof.
  intros H Hne -> . apply HasPrefix_iff in H. destruct H as [t Ht].
  destruct pre; [congruence | discriminate].
Qed.

Lemma githubDisplay_Contains (r : string) :
  Contains (githubDisplay r) "/tree/master"
  /\ Contains (githubDisplay r) "/blob/master".
Proof.
  unfold githubDisplay, Contains. split.
  - exists (r ++ " " ++ r), ("{/dir} " ++ r ++ "/blob/master{/dir}/{file}#L{line}").
    now rewrite !app_assoc.
  - exists (r ++ " " ++ r ++ "/tree/master{/dir} " ++ r), "{/dir}/{file}#L{line}".
    now rewrite !app_assoc.
Qed.

Lemma StronglySorted_weaken (A : Type) (R S : A -> A -> Prop) (l : list A) :
  (forall a b, R a b -> S a b) -> StronglySorted R l -> StronglySorted S l.
Proof.
  intros HRS. induction 1 as [|a l Hl IH Ha]; constructor; auto.
  eapply Forall_impl; [|exact Ha]. auto.
Qed.

(** What [Less] compares is the path, in byte order: a set that [sort.Sort]
    has sorted is ascending by path. *)
Lemma Sort_ascending (sorter : Sorter) (l : pathConfigSet) :
  ascending (Sort sorter l).
Proof.
  apply (@nth_StronglySorted _ _ pathConfig_zero). intros i j Hij Hj.
  apply ltb_false_leb.
  exact (Sort_Sorted sorter l Hij Hj).
Qed.

Lemma compiled_paths (kvs : list (string * PathSpec)) (es : pathConfigSet) :
  Forall2 (fun kv pc => compileEntry (fst kv) (snd kv) = inl pc) kvs es ->
  map path es = map (fun kv => strings.TrimSuffix (fst kv) "/") kvs.
Proof.
  induction 1 as [|kv pc kvs es Hpc _ IH]; simpl; [reflexivity|].
  apply compileEntry_ok in Hpc. destruct Hpc as [-> _]. now rewrite IH.
Qed.

Lemma compiled_origin (kvs : list (string * PathSpec)) (es : pathConfigSet) :
  Forall2 (fun kv pc => compileEntry (fst kv) (snd kv) = inl pc) kvs es ->
  forall pc, In pc es ->
  exists key e, In (key, e) kvs /\ compileEntry key e = inl pc.
Proof.
  induction 1 as [|[k1 e1] pc1 kvs es Hpc _ IH]; intros pc Hin; [easy|].
  destruct Hin as [<-|Hin].
  - exists k1, e1. split; [now left | exact Hpc].
  - destruct (IH pc Hin) as (key & e & Hk & He).
    exists key, e. split; [now right | exact He].
Qed.

Lemma compiled_image (kvs : list (string * PathSpec)) (es : pathConfigSet) :
  Forall2 (fun kv pc => compileEntry (fst kv) (snd kv) = inl pc) kvs es ->
  forall key e, In (key, e) kvs ->
  exists pc, In pc es /\ compileEntry key e = inl pc.
Proof.
  induction 1 as [|[k1 e1] pc1 kvs es Hpc _ IH]; intros key e Hin; [easy|].
  destruct Hin as [Heq|Hin].
  - injection Heq as <- <-. exists pc1. split; [now left | exact Hpc].
  - destruct (IH key e Hin) as (pc & Hk & He).
    exists pc. split; [now right | exact He].
Qed.

Lemma compiles_acceptable (key : string) (e : PathSpec) :
  compiles (key, e) <-> acceptable e.
Proof.
  unfold compiles, acceptable, knownVCS. simpl. split.
  - intros [pc Hpc]. apply compileEntry_ok in Hpc.
    destruct Hpc as (_ & _ & _ & Hknown & [[Hne Heq]|(He & _ & Hgh)]).
    + left. now rewrite <- Heq.
    + now right.
  - intros [Hknown|[He Hgh]].
    + unfold compileEntry.
      destruct Hknown as [H|[H|[H|[H|[]]]]]; rewrite <- H; simpl; eauto.
    + rewrite (compileEntry_infer_git key e He Hgh). eauto.
Qed.

Lemma compiledPrefix_succeeds (kvs : list (string * PathSpec)) :
  snd (compiledPrefix kvs) = None <-> Forall compiles kvs.
Proof.
  induction kvs as [|[key e] rest IH]; simpl.
  - split; [constructor | reflexivity].
  - destruct (compileEntry key e) as [pc|msg] eqn:Epc; simpl.
    + destruct (compiledPrefix rest) as [es err]. simpl in *. split.
      * intros H. constructor; [exists pc; exact Epc | now apply IH].
      * intros H. inversion H. now apply IH.
    + split; [discriminate|]. intros H. inversion H as [|? ? [pc Hpc] _].
      simpl in Hpc. congruence.
Qed.

Lemma Forall_compiles_acceptable (kvs : list (string * PathSpec)) :
  Forall compiles kvs <-> Forall (fun kv => acceptable (snd kv)) kvs.
Proof.
  rewrite !Forall_forall.
  split; intros H [key e] Hin; apply (compiles_acceptable key e);
    exact (H _ Hin).
Qed.

(** ** Failed compiles *)

(** Whenever a validation step fails, [configure] returns an error. *)
Lemma configure_fails (sorter : Sorter) (h : Handler) (c : Config) :
  (exists v, CacheAge c = Some v /\ (v < 0)%Z)
  \/ (exists key e msg, In (key, e) (Paths c)
        /\ compileEntry key e = inr msg) ->
  snd (configure sorter h c) <> None.
Proof.
  intros [(v & Hv & Hneg)|(key & e & msg & Hin & Hfail)].
  - now rewrite (configure_negative sorter h c Hv Hneg).
  - destruct (configure sorter h c) as [h' [err|]] eqn:Hc; [discriminate|].
    apply configure_success in Hc. destruct Hc as (_ & Hnone & _).
    now apply (@compiledPrefix_any_failure _ _ _ _ Hin Hfail) in Hnone.
Qed.

(** A compile that fails at an entry leaves behind the new host, the new
    cache policy and the entries appended so far, unsorted. *)
Lemma configure_failure_state (sorter : Sorter) (h : Handler) (c : Config)
    (msg : string) :
  cacheAgeValid c -> snd (compiledPrefix (Paths c)) = Some msg ->
  configure sorter h c
  = (mkHandler (Host c)
       ("public, max-age=" ++ fmt_d (effectiveCacheAge c))
       (fst (compiledPrefix (Paths c))),
     Some msg).
Proof.
  intros Hvalid Hfail. rewrite (configure_valid sorter h Hvalid). simpl.
  destruct (compiledPrefix (Paths c)) as [es err]. simpl in Hfail.
  now subst err.
Qed.

(** C4.  A configuration whose [cache_max_age] is negative is rejected with
    the error "cache_max_age is negative" before anything is written: the
    handler is left as it was, so a refresh turn that meets such a
    configuration keeps the active snapshot and every request is answered
    as before; at start-up, [NewHandler] fails with the same error. *)
Theorem C4_negative_cache_age
    (sorter : Sorter) (h : Handler) (c : Config) (v : Z) :
  CacheAge c = Some v -> (v < 0)%Z ->
  configure sorter h c = (h, Some errNegativeCacheAge)
  /\ NewHandler sorter (inl c) = inr errNegativeCacheAge
  /\ (forall interval,
        refreshTurn sorter interval h (inl c)
        = (h, [Sleep (seconds interval); Log errNegativeCacheAge]))
  /\ (forall interval r,
        ServeHTTP (fst (refreshTurn sorter interval h (inl c))) r
        = ServeHTTP h r).
Proof.
  intros Hv Hneg.
  assert (Hc : forall h0, configure sorter h0 c = (h0, Some errNegativeCacheAge))
    by (intros h0; exact (configure_negative sorter h0 c Hv Hneg)).
  repeat split.
  - apply Hc.
  - unfold NewHandler. now rewrite Hc.
  - intros interval. unfold refreshTurn. now rewrite Hc.
  - intros interval r. unfold refreshTurn. now rewrite Hc.
Qed.

Lemma C4_negative_cache_age_witness :
  CacheAge cfg_negative_age = Some (-1)%Z /\ (-1 < 0)%Z
  /\ configure insertionSorter h_active cfg_negative_age
     = (h_active, Some "cache_max_age is negative").
Proof.
  split; [reflexivity|]. split; [lia|].
  apply (proj1 (@C4_negative_cache_age insertionSorter h_active
                  cfg_negative_age (-1)%Z eq_refl ltac:(lia))).
Defined.

(** C2.  [configure] returns an error whenever a validation step fails, but
    only a negative cache age leaves the handler as it was.  A failure met
    inside the loop comes after [h.host], [h.cacheControl] and [h.paths]
    have been overwritten: reloading the handler that serves [/a] and
    [/a/b] with a configuration whose second entry has no inferable VCS
    returns the error and leaves the new host, the new cache policy and the
    one entry compiled so far; [/a], served before, is not found after. *)
Theorem C2_failed_reload_overwrites_handler :
  (forall sorter h c,
     (exists v, CacheAge c = Some v /\ (v < 0)%Z)
     \/ (exists key e msg, In (key, e) (Paths c)
           /\ compileEntry key e = inr msg) ->
     snd (configure sorter h c) <> None)
  /\ configure insertionSorter h_active cfg_uninferable
     = (mkHandler "other.example" "public, max-age=60"
          [mkPathConfig "/ok" "https://github.com/o/ok"
             (githubDisplay "https://github.com/o/ok") "git"],
        Some "configuration for /y: cannot infer VCS from https://example.com/y")
  /\ fst (configure insertionSorter h_active cfg_uninferable) <> h_active
  /\ ServeHTTP h_active (mkRequest "/a" "")
     = Vanity "public, max-age=86400" "example.org/a" "" "R1" "" "git"
  /\ ServeHTTP (fst (configure insertionSorter h_active cfg_uninferable))
       (mkRequest "/a" "")
     = NotFound.
Proof.
  split; [exact configure_fails|].
  repeat split; try reflexivity. discriminate.
Qed.

(** ** Successful compiles *)

(** A refresh turn on a reloadable fetch result keeps the entries sorted. *)
Lemma refreshTurn_keeps_sorted (sorter : Sorter) (interval : Z)
    (h : Handler) (fetched : Fetched) :
  ascending (paths h) -> reloadable fetched ->
  ascending (paths (fst (refreshTurn sorter interval h fetched))).
Proof.
  intros Hasc Hok. unfold refreshTurn.
  destruct fetched as [c|err]; [|exact Hasc]. simpl in Hok.
  assert (Hcase : (exists v, CacheAge c = Some v /\ (v < 0)%Z)
                  \/ cacheAgeValid c).
  { unfold cacheAgeValid. destruct (CacheAge c) as [v|]; [|right; discriminate].
    destruct (Z.lt_ge_cases v 0); [left; eauto|].
    right. intros v' Hv. injection Hv as <-. assumption. }
  destruct Hcase as [(v & Hv & Hneg)|Hvalid].
  - now rewrite (@configure_negative sorter h c v Hv Hneg).
  - rewrite (@configure_valid sorter h c Hvalid). simpl.
    assert (Hnone : snd (compiledPrefix (Paths c)) = None).
    { apply compiledPrefix_succeeds. rewrite Forall_forall in *.
      intros [key e] Hin. apply (proj2 (compiles_acceptable key e)).
      exact (Hok _ Hin). }
    destruct (compiledPrefix (Paths c)) as [es err]. simpl in Hnone.
    subst err. simpl. apply Sort_ascending.
Qed.

Lemma refreshLoop_keeps_sorted (sorter : Sorter) (interval : Z)
    (fetches : list Fetched) :
  forall h,
  ascending (paths h) -> Forall reloadable fetches ->
  ascending (paths (fst (refreshLoop sorter interval h fetches))).
Proof.
  induction fetches as [|fetched rest IH]; intros h Hasc Hok; simpl;
    [exact Hasc|].
  inversion Hok as [|? ? Hfirst Hrest]. subst.
  pose proof (@refreshTurn_keeps_sorted sorter interval h fetched Hasc Hfirst)
    as Hturn.
  destruct (refreshTurn sorter interval h fetched) as [h1 log1].
  specialize (IH h1 Hturn Hrest).
  now destruct (refreshLoop sorter interval h1 rest) as [h2 log2].
Qed.

(** C5 (as amended).  After every successful compile the entries are sorted
    ascending by path in byte order, as [Less] compares them: at no
    position is an entry [Less] than one at an earlier position.  Their
    paths are the keys of the configuration, each with one trailing slash
    removed, one entry per key.  Nothing removes duplicates: no two entries
    have equal paths exactly when no two keys of the configuration
    normalise to the same path.  The entries stay sorted at every moment
    between two calls of [configure], through any number of refresh turns
    whose fetch fails or whose configuration has acceptable entries only.
    (What a reader may see while [configure] runs, or after a reload that
    fails at an entry, is no part of this statement.)  The resolver sorts
    nothing: on [/a/b] before [/a] it answers [/a/b] with the entry
    [/a]. *)
Theorem C5_sorted_by_normalised_key
    (sorter : Sorter) (h h' : Handler) (c : Config) :
  configure sorter h c = (h', None) ->
  ascending (paths h')
  /\ (forall i j, i < j -> j < Len (paths h') ->
                  Less (paths h') j i = false)
  /\ Permutation (normalisedKeys c) (map path (paths h'))
  /\ (NoDup (map path (paths h')) <-> NoDup (normalisedKeys c))
  /\ (forall interval fetches,
        Forall reloadable fetches ->
        ascending
          (paths (fst (refreshLoop sorter interval h' fetches))))
  /\ find [entry_ab; entry_a] "/a/b" = (Some entry_a, "b").
Proof.
  intros Hc. apply configure_success in Hc.
  destruct Hc as (_ & Hnone & ->). simpl.
  pose proof (compiled_paths (compiledPrefix_ok _ Hnone)) as Hkeys.
  fold (normalisedKeys c) in Hkeys.
  assert (Hperm : Permutation (normalisedKeys c)
            (map path (Sort sorter (fst (compiledPrefix (Paths c)))))).
  { rewrite <- Hkeys. apply Permutation_map, Sort_Permutation. }
  split; [apply Sort_ascending|].
  split; [intros i j; apply Sort_Sorted|].
  split; [exact Hperm|].
  split; [split; apply Permutation_NoDup; [symmetry|]; exact Hperm|].
  split; [|reflexivity].
  intros interval fetches Hok. apply refreshLoop_keeps_sorted; [|exact Hok].
  simpl. apply Sort_ascending.
Qed.

Lemma C5_sorted_by_normalised_key_witness :
  configure insertionSorter h_active cfg_pair = (h_pair, None)
  /\ map path (paths h_pair) = ["/hg"; "/ok"]
  /\ normalisedKeys cfg_pair = ["/ok"; "/hg"]
  /\ (ascending (paths h_pair)
      /\ (forall i j, i < j -> j < Len (paths h_pair) ->
                      Less (paths h_pair) j i = false)
      /\ Permutation (normalisedKeys cfg_pair) (map path (paths h_pair))
      /\ (NoDup (map path (paths h_pair)) <-> NoDup (normalisedKeys cfg_pair))
      /\ (forall interval fetches,
            Forall reloadable fetches ->
            ascending
              (paths (fst (refreshLoop insertionSorter interval h_pair
                             fetches))))
      /\ find [entry_ab; entry_a] "/a/b" = (Some entry_a, "b")).
Proof.
  split; [reflexivity|]. split; [reflexivity|]. split; [reflexivity|].
  exact (@C5_sorted_by_normalised_key insertionSorter h_active h_pair
           cfg_pair eq_refl).
Defined.

(** C5, as the specification words it, fails: the keys [/foo] and [/foo/]
    are distinct, the configuration compiles, and the snapshot holds two
    entries with path [/foo]. *)
Lemma C5_counterexample_twin_keys :
  NoDup (map fst (Paths cfg_twin_keys))
  /\ snd (configure insertionSorter Handler_zero cfg_twin_keys) = None
  /\ map path (paths (fst (configure insertionSorter Handler_zero
                             cfg_twin_keys)))
     = ["/foo"; "/foo"]
  /\ ~ NoDup (map path (paths (fst (configure insertionSorter Handler_zero
                                      cfg_twin_keys)))).
Proof.
  split; [repeat constructor; simpl; intuition discriminate|].
  split; [reflexivity|]. split; [reflexivity|].
  intros H. vm_compute in H. inversion H as [|x l Hnotin _]. apply Hnotin.
  now left.
Qed.

(** C6 (as amended).  After every successful compile, every entry of the
    snapshot has a VCS among bzr, git, hg and svn, and comes from a key and
    value of the configuration: its path is that key with one trailing
    slash removed, which is empty exactly for the keys [""] and ["/"]; its
    repo is the configured one, which begins with [https://github.com/]
    (so is not empty) when the VCS was inferred, and is not inspected when
    the VCS was given. *)
Theorem C6_entries_of_a_snapshot
    (sorter : Sorter) (h h' : Handler) (c : Config) (pc : pathConfig) :
  configure sorter h c = (h', None) -> In pc (paths h') ->
  In (vcs pc) knownVCS
  /\ exists key e,
       In (key, e) (Paths c)
       /\ path pc = strings.TrimSuffix key "/"
       /\ (path pc = "" <-> key = "" \/ key = "/")
       /\ repo pc = Repo e
       /\ (VCS e = "" ->
           vcs pc = "git"
           /\ strings.HasPrefix (repo pc) githubPrefix = true
           /\ repo pc <> "")
       /\ (VCS e <> "" -> vcs pc = VCS e).
Proof.
  intros Hc Hin. apply configure_success in Hc.
  destruct Hc as (_ & Hnone & ->). simpl in Hin.
  apply (Permutation_in _ (Permutation_sym (Sort_Permutation sorter _)))
    in Hin.
  destruct (compiled_origin (compiledPrefix_ok _ Hnone) _ Hin)
    as (key & e & Hkey & Hpc).
  apply compileEntry_ok in Hpc.
  destruct Hpc as (Hpath & Hrepo & _ & Hknown & Hvcs).
  split; [exact Hknown|]. exists key, e.
  split; [exact Hkey|]. split; [exact Hpath|].
  split; [rewrite Hpath; apply TrimSuffix_slash_empty|].
  split; [exact Hrepo|]. split.
  - intros Hempty. destruct Hvcs as [[Hne _]|(_ & Hgit & Hgh)]; [easy|].
    rewrite Hrepo. repeat split; auto.
    apply (HasPrefix_nonempty Hgh). discriminate.
  - intros Hne. destruct Hvcs as [[_ Heq]|(Hempty & _)]; [exact Heq | easy].
Qed.

Lemma C6_entries_of_a_snapshot_witness :
  configure insertionSorter h_active cfg_second = (h_second, None)
  /\ In entry_a2 (paths h_second)
  /\ In (vcs entry_a2) knownVCS
  /\ exists key e,
       In (key, e) (Paths cfg_second)
       /\ path entry_a2 = strings.TrimSuffix key "/"
       /\ (path entry_a2 = "" <-> key = "" \/ key = "/")
       /\ repo entry_a2 = Repo e
       /\ (VCS e = "" ->
           vcs entry_a2 = "git"
           /\ strings.HasPrefix (repo entry_a2) githubPrefix = true
           /\ repo entry_a2 <> "")
       /\ (VCS e <> "" -> vcs entry_a2 = VCS e).
Proof.
  split; [reflexivity|]. split; [now left|].
  exact (@C6_entries_of_a_snapshot insertionSorter h_active h_second
           cfg_second entry_a2 eq_refl (or_introl eq_refl)).
Defined.

(** C6, as the specification words it, fails: the root key [/] with an
    explicit VCS and no repository compiles, and its entry has an empty
    path and an empty repo. *)
Lemma C6_counterexample_root_key :
  configure insertionSorter Handler_zero cfg_root
  = (mkHandler "" "public, max-age=86400" [mkPathConfig "" "" "" "git"],
     None)
  /\ path (mkPathConfig "" "" "" "git") = ""
  /\ repo (mkPathConfig "" "" "" "git") = "".
Proof. repeat split. Qed.

(** ** Entries without a VCS *)

(** C7 (as amended).  For an entry of the configuration whose [vcs] is
    empty: if its repo begins with [https://github.com/], the loop body
    gives it the VCS git (and, when [display] is empty too, the display
    built from the repo, which contains [/tree/master] and [/blob/master]),
    and that entry is in the snapshot of every successful compile;
    otherwise the compile fails, and the error is the one that says the VCS
    cannot be inferred, naming the entry's key and repo, whenever the cache
    age is valid and every entry visited before this one passes. *)
Theorem C7_entry_without_vcs
    (sorter : Sorter) (h : Handler) (c : Config)
    (key : string) (e : PathSpec) :
  In (key, e) (Paths c) -> VCS e = "" ->
  (strings.HasPrefix (Repo e) githubPrefix = true ->
     let pc := mkPathConfig (strings.TrimSuffix key "/") (Repo e)
                 (if Display e =? "" then githubDisplay (Repo e)
                  else Display e) "git" in
     compileEntry key e = inl pc
     /\ (Display e = "" ->
         Contains (display pc) "/tree/master"
         /\ Contains (display pc) "/blob/master")
     /\ forall h', configure sorter h c = (h', None) -> In pc (paths h'))
  /\ (strings.HasPrefix (Repo e) githubPrefix = false ->
      compileEntry key e = inr (errCannotInferVCS key (Repo e))
      /\ snd (configure sorter h c) <> None
      /\ (cacheAgeValid c ->
          forall l1 l2, Paths c = (l1 ++ (key, e) :: l2)%list ->
          Forall compiles l1 ->
          snd (configure sorter h c)
          = Some (errCannotInferVCS key (Repo e)))).
Proof.
  intros Hin Hempty. split; intros Hgh.
  - pose proof (compileEntry_infer_git key e Hempty Hgh) as Hpc.
    split; [exact Hpc|]. split.
    + intros Hd. simpl. rewrite Hd. simpl. apply githubDisplay_Contains.
    + intros h' Hc. apply configure_success in Hc.
      destruct Hc as (_ & Hnone & ->). simpl.
      apply (Permutation_in _ (Sort_Permutation sorter _)).
      destruct (compiled_image (compiledPrefix_ok _ Hnone) _ _ Hin)
        as (pc' & Hin' & Hpc').
      congruence.
  - pose proof (compileEntry_cannot_infer key e Hempty Hgh) as Hfail.
    split; [exact Hfail|]. split.
    + apply configure_fails. right. eauto.
    + intros Hvalid l1 l2 Hpaths Hl1.
      rewrite (configure_failure_state sorter h (msg := errCannotInferVCS key (Repo e)) Hvalid);
        [reflexivity|].
      rewrite Hpaths. now apply compiledPrefix_first_failure.
Qed.

Lemma C7_entry_without_vcs_witness :
  In ("/y", mkPathSpec "https://example.com/y" "" "") (Paths cfg_uninferable)
  /\ VCS (mkPathSpec "https://example.com/y" "" "") = ""
  /\ snd (configure insertionSorter h_active cfg_uninferable)
     = Some "configuration for /y: cannot infer VCS from https://example.com/y".
Proof.
  split; [simpl; auto|]. split; [reflexivity|].
  refine (proj2 (proj2 (proj2
            (@C7_entry_without_vcs insertionSorter h_active cfg_uninferable
               "/y" (mkPathSpec "https://example.com/y" "" "")
               (or_intror (or_introl eq_refl)) eq_refl) eq_refl)) _
            [("/ok", mkPathSpec "https://github.com/o/ok" "" "")] []
            eq_refl _).
  - intros v Hv. injection Hv as <-. lia.
  - repeat constructor. eexists. reflexivity.
Defined.

(** C7, as the specification words it, fails: an entry with no VCS and a
    repo outside github does make the compile fail, but the error is that
    of the first failure met.  With [cache_max_age = -1] it is the
    cache-age error; with two such entries it names the one visited first
    and not the other, whichever the order of the visit. *)
Lemma C7_counterexample_first_failure_wins :
  (In ("/y", mkPathSpec "https://example.com/y" "" "")
      (Paths cfg_negative_age)
   /\ snd (configure insertionSorter Handler_zero cfg_negative_age)
      = Some "cache_max_age is negative"
   /\ "cache_max_age is negative"
      <> errCannotInferVCS "/y" "https://example.com/y")
  /\ (snd (configure insertionSorter Handler_zero
             (mkConfig "" None None [("/p", spec_p); ("/q", spec_q)]))
      = Some (errCannotInferVCS "/p" (Repo spec_p))
      /\ errCannotInferVCS "/p" (Repo spec_p)
         <> errCannotInferVCS "/q" (Repo spec_q))
  /\ (snd (configure insertionSorter Handler_zero
             (mkConfig "" None None [("/q", spec_q); ("/p", spec_p)]))
      = Some (errCannotInferVCS "/q" (Repo spec_q))
      /\ errCannotInferVCS "/q" (Repo spec_q)
         <> errCannotInferVCS "/p" (Repo spec_p)).
Proof.
  repeat split; try reflexivity; try discriminate. simpl. auto.
Qed.

(** ** Keys with a trailing slash *)

(** The key enters an accepted entry through [TrimSuffix] only; it also
    appears in the text of an error. *)
Lemma compileEntry_same_stored_path (k1 k2 : string) (e : PathSpec) :
  strings.TrimSuffix k1 "/" = strings.TrimSuffix k2 "/" ->
  match compileEntry k1 e, compileEntry k2 e with
  | inl pc1, inl pc2 => pc1 = pc2
  | inr _, inr _ => True
  | _, _ => False
  end.
Proof.
  intros Hk. unfold compileEntry. rewrite Hk.
  destruct (negb (VCS e =? "")).
  - now destruct (negb (VCS e =? "bzr") && negb (VCS e =? "git")
                  && negb (VCS e =? "hg") && negb (VCS e =? "svn")).
  - now destruct (strings.HasPrefix (Repo e) githubPrefix).
Qed.

Lemma compiledPrefix_same_stored_path
    (l1 l2 : list (string * PathSpec)) (k1 k2 : string) (e : PathSpec) :
  strings.TrimSuffix k1 "/" = strings.TrimSuffix k2 "/" ->
  fst (compiledPrefix (l1 ++ (k1, e) :: l2))
  = fst (compiledPrefix (l1 ++ (k2, e) :: l2))
  /\ (snd (compiledPrefix (l1 ++ (k1, e) :: l2)) = None
      <-> snd (compiledPrefix (l1 ++ (k2, e) :: l2)) = None).
Proof.
  intros Hk. induction l1 as [|[k0 e0] l1 IH]; simpl.
  - pose proof (@compileEntry_same_stored_path k1 k2 e Hk) as H.
    destruct (compileEntry k1 e) as [pc1|m1], (compileEntry k2 e) as [pc2|m2];
      try easy.
    subst pc2. destruct (compiledPrefix l2). simpl. tauto.
  - destruct (compileEntry k0 e0); simpl; [|tauto].
    destruct (compiledPrefix (l1 ++ (k1, e) :: l2)) as [es1 err1],
             (compiledPrefix (l1 ++ (k2, e) :: l2)) as [es2 err2].
    simpl in *. destruct IH as [-> IH]. tauto.
Qed.

Lemma configure_same_stored_path
    (sorter : Sorter) (h : Handler) (hostname : string)
    (interval age : option Z)
    (l1 l2 : list (string * PathSpec)) (k1 k2 : string) (e : PathSpec) :
  strings.TrimSuffix k1 "/" = strings.TrimSuffix k2 "/" ->
  let c1 := mkConfig hostname interval age (l1 ++ (k1, e) :: l2) in
  let c2 := mkConfig hostname interval age (l1 ++ (k2, e) :: l2) in
  fst (configure sorter h c1) = fst (configure sorter h c2)
  /\ (snd (configure sorter h c1) = None
      <-> snd (configure sorter h c2) = None).
Proof.
  intros Hk c1 c2.
  assert (Hcase : (exists v, age = Some v /\ (v < 0)%Z)
                  \/ (forall v, age = Some v -> (0 <= v)%Z)).
  { destruct age as [v|]; [|right; discriminate].
    destruct (Z.lt_ge_cases v 0); [left; eauto|].
    right. intros v' Hv. injection Hv as <-. assumption. }
  destruct Hcase as [(v & Hv & Hneg)|Hvalid].
  - rewrite (@configure_negative sorter h c1 v),
            (@configure_negative sorter h c2 v); auto. tauto.
  - rewrite (@configure_valid sorter h c1), (@configure_valid sorter h c2);
      auto.
    unfold c1, c2, effectiveCacheAge. simpl.
    destruct (@compiledPrefix_same_stored_path l1 l2 k1 k2 e Hk) as [Hes Herr].
    destruct (compiledPrefix (l1 ++ (k1, e) :: l2)) as [es1 [m1|]],
             (compiledPrefix (l1 ++ (k2, e) :: l2)) as [es2 [m2|]];
      simpl in *; subst; destruct Herr as [Ha Hb];
      try (now specialize (Ha eq_refl)); try (now specialize (Hb eq_refl));
      (split; [reflexivity|]); split; auto; discriminate.
Qed.




(** * The lifecycle: start-up, refresh, and requests in flight *)

Lemma sleeps_app (a b : list Effect) :
  sleeps (a ++ b) = (sleeps a ++ sleeps b)%list.
Proof.
  induction a as [|[d|m] a IH]; simpl; auto. now rewrite IH.
Qed.

(** Every turn of the refresh loop sleeps for the interval captured at
    start-up, whatever the fetch returns. *)
Lemma refreshLoop_sleeps (sorter : Sorter) (interval : Z)
    (fetches : list Fetched) :
  forall h,
  sleeps (snd (refreshLoop sorter interval h fetches))
  = repeat (seconds interval) (List.length fetches).
Proof.
  induction fetches as [|fetched rest IH]; intros h; simpl; [reflexivity|].
  destruct (refreshTurn sorter interval h fetched) as [h1 log1] eqn:Eturn.
  specialize (IH h1).
  destruct (refreshLoop sorter interval h1 rest) as [h2 log2].
  simpl in *. rewrite sleeps_app, IH. f_equal.
  unfold refreshTurn in Eturn.
  destruct fetched as [config|err].
  - destruct (configure sorter h config) as [h' [msg|]];
      injection Eturn as _ <-; reflexivity.
  - injection Eturn as _ <-; reflexivity.
Qed.

(** [configure] never reads [fetch_interval]. *)
Lemma configure_ignores_FetchInterval (sorter : Sorter) (h : Handler)
    (c : Config) (interval : option Z) :
  configure sorter h (mkConfig (Host c) interval (CacheAge c) (Paths c))
  = configure sorter h c.
Proof. reflexivity. Qed.

(** C10.  When the configuration fetched at start-up carries a
    [fetch_interval] that is zero or negative, [NewHandler] behaves as if
    the field were absent: it fails only if [configure] fails, and
    otherwise the goroutine is started with an interval of 86400 seconds.
    Whatever the later fetches return, each turn of the refresh loop sleeps
    for that same interval. *)
Theorem C10_non_positive_fetch_interval
    (sorter : Sorter) (c : Config) (v : Z) :
  FetchInterval c = Some v -> (v <= 0)%Z ->
  NewHandler sorter (inl c)
  = NewHandler sorter
      (inl (mkConfig (Host c) None (CacheAge c) (Paths c)))
  /\ NewHandler sorter (inl c)
     = match configure sorter Handler_zero c with
       | (_, Some err) => inr err
       | (h, None) => inl (h, 86400%Z)
       end
  /\ (forall h interval,
        NewHandler sorter (inl c) = inl (h, interval) ->
        interval = 86400%Z
        /\ forall fetches,
             sleeps (snd (refreshLoop sorter interval h fetches))
             = repeat (seconds 86400) (List.length fetches)).
Proof.
  intros Hv Hle.
  assert (Hnew : NewHandler sorter (inl c)
                 = match configure sorter Handler_zero c with
                   | (_, Some err) => inr err
                   | (h, None) => inl (h, 86400%Z)
                   end).
  { unfold NewHandler. rewrite Hv.
    destruct (0 <? v)%Z eqn:Epos; [apply Z.ltb_lt in Epos; lia|].
    reflexivity. }
  split; [|split].
  - rewrite Hnew. unfold NewHandler. simpl.
    now rewrite configure_ignores_FetchInterval.
  - exact Hnew.
  - intros h interval Hok. rewrite Hnew in Hok.
    destruct (configure sorter Handler_zero c) as [h0 [err|]];
      [discriminate|].
    injection Hok as <- <-. split; [reflexivity|].
    intros fetches. apply refreshLoop_sleeps.
Qed.

Lemma C10_non_positive_fetch_interval_witness :
  FetchInterval cfg_zero_interval = Some 0%Z /\ (0 <= 0)%Z
  /\ NewHandler insertionSorter (inl cfg_zero_interval)
     = inl (mkHandler "" "public, max-age=86400" [entry_a2], 86400%Z)
  /\ sleeps (snd (refreshLoop insertionSorter 86400
                    (mkHandler "" "public, max-age=86400" [entry_a2])
                    [inl (mkConfig "" (Some 10%Z) None []); inr "EOF"]))
     = [seconds 86400; seconds 86400].
Proof.
  split; [reflexivity|]. split; [lia|].
  pose proof (@C10_non_positive_fetch_interval insertionSorter
                cfg_zero_interval 0%Z eq_refl ltac:(lia)) as H.
  destruct H as (_ & Hnew & Hloop). split; [exact Hnew|].
  exact (proj2 (Hloop _ _ Hnew)
           [inl (mkConfig "" (Some 10%Z) None []); inr "EOF"]).
Defined.

(** A request that no reload interrupts is answered from one handler
    state. *)
Lemma interleave_uninterrupted (sorter : Sorter) (h : Handler) (r : Request) :
  interleave sorter h r AtFind [Serve; Serve; Serve]
  = (h, Responded (ServeHTTP h r)).
Proof.
  simpl. unfold ServeHTTP.
  now destruct (find (paths h) (URL_Path r)) as [[pc|] sub].
Qed.

(** C9.  A request that runs alone is answered from one snapshot, but the
    reads of [ServeHTTP] are not guarded by the mutex that [configure]
    holds.  A request for [/a] that has resolved its entry against the
    snapshot of [h_active], and then lets a successful reload to
    [cfg_second] pass before it reads the cache policy and the host, is
    answered with the repository of the old snapshot under the cache
    policy and host of the new one: a response that neither snapshot
    alone gives. *)
Theorem C9_request_across_a_reload :
  (forall sorter h r,
     interleave sorter h r AtFind [Serve; Serve; Serve]
     = (h, Responded (ServeHTTP h r)))
  /\ configure insertionSorter h_active cfg_second = (h_second, None)
  /\ ServeHTTP h_active request_a
     = Vanity "public, max-age=86400" "example.org/a" "" "R1" "" "git"
  /\ ServeHTTP h_second request_a
     = Vanity "public, max-age=5" "second.example/a" ""
         "https://github.com/o/a2"
         (githubDisplay "https://github.com/o/a2") "git"
  /\ interleave insertionSorter h_active request_a AtFind
       [Serve; Reload cfg_second; Serve; Serve]
     = (h_second,
        Responded (Vanity "public, max-age=5" "second.example/a" ""
                     "R1" "" "git"))
  /\ snd (interleave insertionSorter h_active request_a AtFind
            [Serve; Reload cfg_second; Serve; Serve])
     <> Responded (ServeHTTP h_active request_a)
  /\ snd (interleave insertionSorter h_active request_a AtFind
            [Serve; Reload cfg_second; Serve; Serve])
     <> Responded (ServeHTTP h_second request_a).
Proof.
  split; [exact interleave_uninterrupted|].
  repeat split; try reflexivity; discriminate.
Qed.

(** * Further properties of the resolver *)

(** The search position never leaves [0 .. n], whatever the predicate. *)
Lemma Search_loop_range (f : nat -> bool) (fuel i j : nat) :
  i <= j -> i <= sort.Search_loop fuel f i j <= j.
Proof.
  revert i j. induction fuel as [|fuel IH]; intros i j Hij; simpl; [lia|].
  destruct (i <? j)%nat eqn:Elt; [|lia].
  apply Nat.ltb_lt in Elt.
  assert (Hh : i <= Nat.div2 (i + j) < j)
    by (rewrite Nat.div2_div;
        pose proof (Nat.div_mod_eq (i + j) 2);
        pose proof (Nat.mod_upper_bound (i + j) 2); lia).
  destruct (f (Nat.div2 (i + j))); simpl.
  - specialize (IH i (Nat.div2 (i + j))). lia.
  - specialize (IH (Nat.div2 (i + j) + 1) j). lia.
Qed.

Lemma Search_range (n : nat) (f : nat -> bool) : sort.Search n f <= n.
Proof.
  unfold sort.Search. pose proof (@Search_loop_range f n 0 n). lia.
Qed.

(** The slow path returns its initial state or an entry it has scanned,
    together with what is left of [p] behind that entry's path. *)
Lemma find_scan_subpath (p : string) (before : list pathConfig) :
  forall (sub : string) (n : nat) (best : option pathConfig),
  n <= String.length p ->
  find_scan p before sub n best = (best, sub)
  \/ exists e sub',
       find_scan p before sub n best = (Some e, sub')
       /\ In e before /\ p = path e ++ sub'
       /\ sub' <> "" /\ path e <> "".
Proof.
  induction before as [|ps rest IH]; intros sub n best Hn; simpl.
  - now left.
  - pose proof (@scan_selects p ps n Hn) as Hsel.
    destruct (String.length p <=? String.length (path ps))%nat eqn:Elen;
      [|destruct (String.length (strings.TrimPrefix p (path ps)) <? n)%nat
          eqn:Eshort].
    + destruct (IH sub n best Hn) as [H|(e & s & H & Hin & Hrest)];
        [now left|].
      right. exists e, s. split; [exact H|]. split; [now right | exact Hrest].
    + destruct Hsel as [Hsel _].
      destruct (Hsel (conj eq_refl eq_refl)) as (Hne & (t & Ht & Hp) & _).
      assert (Htrim : strings.TrimPrefix p (path ps) = t)
        by (rewrite Hp at 1; apply TrimPrefix_app).
      rewrite Htrim.
      assert (Hlen : String.length t <= String.length p)
        by (rewrite Hp, length_app; lia).
      destruct (IH t (String.length t) (Some ps) Hlen)
        as [H|(e & s & H & Hin & Hrest)].
      * right. exists ps, t. rewrite H. repeat split; auto.
      * right. exists e, s. split; [exact H|].
        split; [now right | exact Hrest].
    + destruct (IH sub n best Hn) as [H|(e & s & H & Hin & Hrest)];
        [now left|].
      right. exists e, s. split; [exact H|]. split; [now right | exact Hrest].
Qed.

(** The shape of every result of [find], on any entry set. *)
Lemma find_result_shape (pset : pathConfigSet) (p : string) :
  match find pset p with
  | (Some e, sub) =>
      In e pset
      /\ ((path e = p /\ sub = "")
          \/ p = path e ++ "/" ++ sub
          \/ (p = path e ++ sub /\ sub <> "" /\ path e <> ""))
  | (None, sub) => sub = ""
  end.
Proof.
  pose proof (Search_range (Len pset)
                (fun i => (p <=? path (at_index pset i)))) as Hi.
  unfold find.
  set (i := sort.Search (Len pset)
              (fun i => (p <=? path (at_index pset i)))) in *.
  destruct ((i <? Len pset)%nat && (path (at_index pset i) =? p))
    eqn:Eexact.
  { apply andb_true_iff in Eexact. destruct Eexact as [Hlt Heq].
    apply Nat.ltb_lt in Hlt. apply String.eqb_eq in Heq.
    split; [now apply nth_In|]. now left. }
  destruct ((0 <? i)%nat
            && strings.HasPrefix p (path (at_index pset (i - 1)) ++ "/"))
    eqn:Eparent.
  { apply andb_true_iff in Eparent. destruct Eparent as [Hpos Hpre].
    apply Nat.ltb_lt in Hpos. apply HasPrefix_iff in Hpre.
    destruct Hpre as [t Ht]. rewrite app_assoc in Ht.
    split; [apply nth_In; unfold Len in *; lia|].
    right. left.
    assert (Hcut : strings.slice_from p
                     (String.length (path (at_index pset (i - 1))) + 1)
                   = t).
    { replace (String.length (path (at_index pset (i - 1))) + 1)
        with (String.length (path (at_index pset (i - 1)) ++ "/"))
        by (rewrite length_app; reflexivity).
      rewrite Ht, <- app_assoc. apply slice_from_app. }
    rewrite Hcut. exact Ht. }
  destruct (@find_scan_subpath p (firstn i pset) "" (String.length p) None
              (le_n _)) as [H|(e & s & H & Hin & Hrest)]; rewrite H.
  - reflexivity.
  - split; [eapply In_firstn; eauto|]. right. right. exact Hrest.
Qed.

(** X1.  Whatever the entry set, sorted or not, [find] reads [pset[i]] and
    [pset[i-1]] within range and slices the request path within its
    length; an entry it returns is an entry of the set, and the request
    path is that entry's path followed by the subpath, with one slash
    between them on the parent-prefix path only; when it returns no entry
    the subpath is empty. *)
Theorem X1_find_result_shape (pset : pathConfigSet) (p : string) :
  let i := sort.Search (Len pset)
             (fun i => (p <=? path (at_index pset i))) in
  i <= Len pset
  /\ (strings.HasPrefix p (path (at_index pset (i - 1)) ++ "/") = true ->
      String.length (path (at_index pset (i - 1))) + 1 <= String.length p)
  /\ match find pset p with
     | (Some e, sub) =>
         In e pset
         /\ ((path e = p /\ sub = "")
             \/ p = path e ++ "/" ++ sub
             \/ (p = path e ++ sub /\ sub <> "" /\ path e <> ""))
     | (None, sub) => sub = ""
     end.
Proof.
  intros i. split; [apply Search_range|]. split.
  - intros Hpre. apply HasPrefix_iff in Hpre. destruct Hpre as [t Ht].
    rewrite Ht, !length_app. simpl. lia.
  - apply find_result_shape.
Qed.

Lemma NoDup_map_injective (A B : Type) (f : A -> B) (l : list A) (a b : A) :
  NoDup (map f l) -> In a l -> In b l -> f a = f b -> a = b.
Proof.
  induction l as [|x l IH]; simpl; [easy|].
  intros Hnd [<-|Ha] [<-|Hb] Heq; auto.
  - inversion Hnd as [|? ? Hnotin _]. exfalso. apply Hnotin.
    rewrite Heq. now apply in_map.
  - inversion Hnd as [|? ? Hnotin _]. exfalso. apply Hnotin.
    rewrite <- Heq. now apply in_map.
  - inversion Hnd. auto.
Qed.

(** X2.  Looking up the path of an entry of a sorted set takes the exact
    fast path: the result is an entry with that very path and an empty
    subpath, and it is the entry itself when no other entry shares its
    path. *)
Theorem X2_find_exact_lookup (E : pathConfigSet) (e : pathConfig) :
  ascending E -> In e E ->
  (exists e', find E (path e) = (Some e', "")
              /\ In e' E /\ path e' = path e)
  /\ (NoDup (map path E) -> find E (path e) = (Some e, "")).
Proof.
  intros Hasc Hin.
  destruct (In_nth E e pathConfig_zero Hin) as (k & Hk & Hnth).
  destruct (@exact_at_search E (path e) Hasc k Hk) as [Hr Heq];
    [unfold at_index; now rewrite Hnth|].
  assert (Hfind : find E (path e)
                  = (Some (at_index E
                             (sort.Search (Len E)
                                (fun i => (path e <=? path (at_index E i))))),
                     "")).
  { unfold find. apply Nat.ltb_lt in Hr. apply String.eqb_eq in Heq.
    now rewrite Hr, Heq. }
  assert (Hmem : In (at_index E
                       (sort.Search (Len E)
                          (fun i => (path e <=? path (at_index E i))))) E)
    by (apply nth_In; exact Hr).
  split.
  - eexists. split; [exact Hfind|]. split; [exact Hmem | exact Heq].
  - intros Hnd. rewrite Hfind. do 2 f_equal.
    exact (@NoDup_map_injective _ _ path E _ _ Hnd Hmem Hin Heq).
Qed.

Lemma X2_find_exact_lookup_witness :
  ascending E_ab /\ In entry_ab E_ab
  /\ find E_ab (path entry_ab) = (Some entry_ab, "").
Proof.
  assert (Ha : ascending E_ab) by (repeat constructor).
  assert (Hi : In entry_ab E_ab) by (right; left; reflexivity).
  split; [exact Ha|]. split; [exact Hi|].
  apply (proj2 (@X2_find_exact_lookup E_ab entry_ab Ha Hi)).
  repeat constructor; simpl; intuition discriminate.
Defined.

(** X3.  On a sorted set, no entry at or after the binary-search position
    is a proper prefix of the request path (as the comment before the slow
    path says), so the scan of the entries before that position misses no
    literal prefix. *)
Theorem X3_no_prefix_from_search_position
    (E : pathConfigSet) (p : string) (k : nat) :
  ascending E ->
  sort.Search (Len E) (fun i => (p <=? path (at_index E i))) <= k ->
  k < Len E ->
  ~ properPrefix p (path (at_index E k)).
Proof.
  intros Hasc Hge Hk Hpre.
  pose proof (@prefix_before_search E p Hasc k Hk Hpre). lia.
Qed.

Lemma X3_no_prefix_from_search_position_witness :
  ascending E_ab
  /\ sort.Search (Len E_ab) (fun i => ("/a/a" <=? path (at_index E_ab i))) <= 1
  /\ 1 < Len E_ab
  /\ ~ properPrefix "/a/a" (path (at_index E_ab 1)).
Proof.
  assert (Ha : ascending E_ab) by (repeat constructor).
  assert (Hs : sort.Search (Len E_ab)
                 (fun i => ("/a/a" <=? path (at_index E_ab i))) <= 1)
    by (vm_compute; lia).
  assert (Hl : 1 < Len E_ab) by (vm_compute; lia).
  split; [exact Ha|]. split; [exact Hs|]. split; [exact Hl|].
  exact (@X3_no_prefix_from_search_position E_ab "/a/a" 1 Ha Hs Hl).
Defined.

(** X4.  An entry with the empty path (the root key) is returned for a
    non-empty request path only by the parent-prefix test: the request
    path begins with a slash, the subpath is the rest, and every entry
    with a non-empty path sorts strictly after the request path.  The slow
    path never selects it. *)
Theorem X4_root_entry_only_as_predecessor
    (E : pathConfigSet) (p : string) (e : pathConfig) (sub : string) :
  ascending E -> find E p = (Some e, sub) -> path e = "" -> p <> "" ->
  p = "/" ++ sub
  /\ forall c, In c E -> path c <> "" -> (p <? path c) = true.
Proof.
  intros Hasc Hfind Hempty Hp.
  destruct (@search_bounds E p Hasc) as (Hr & Hlo & Hhi).
  unfold find in Hfind.
  set (i := sort.Search (Len E) (fun i => (p <=? path (at_index E i))))
    in *.
  destruct ((i <? Len E)%nat && (path (at_index E i) =? p)) eqn:Eexact.
  { apply andb_true_iff in Eexact. destruct Eexact as [_ Heq].
    apply String.eqb_eq in Heq. injection Hfind as <- _. congruence. }
  destruct ((0 <? i)%nat
            && strings.HasPrefix p (path (at_index E (i - 1)) ++ "/"))
    eqn:Eparent.
  - apply andb_true_iff in Eparent. destruct Eparent as [Hpos Hpre].
    apply Nat.ltb_lt in Hpos. injection Hfind as <- <-.
    rewrite Hempty in *. simpl in Hpre |- *.
    apply HasPrefix_iff in Hpre. destruct Hpre as [t Ht]. split.
    + rewrite Ht at 1. simpl. f_equal. subst p. reflexivity.
    + intros c Hc Hcn.
      destruct (In_nth E c pathConfig_zero Hc) as (k & Hk & Hnth).
      destruct (Nat.lt_ge_cases k i) as [Hlt|Hge].
      * exfalso. apply Hcn.
        pose proof (@ascending_at E p Hasc k (i - 1)) as Hle.
        unfold at_index in Hle. rewrite Hnth in Hle.
        fold (at_index E (i - 1)) in Hle. rewrite Hempty in Hle.
        specialize (Hle ltac:(lia) ltac:(unfold Len in *; lia)).
        destruct (path c); [reflexivity | discriminate].
      * specialize (Hhi k Hge Hk). unfold at_index in Hhi.
        rewrite Hnth in Hhi. apply leb_cases in Hhi.
        destruct Hhi as [Hlt|Heq]; [exact Hlt|]. exfalso.
        destruct (@exact_at_search E p Hasc k Hk) as [Hri Hreq];
          [unfold at_index; now rewrite Hnth|].
        fold i in Hri, Hreq.
        apply Nat.ltb_lt in Hri. apply String.eqb_eq in Hreq.
        rewrite Hri, Hreq in Eexact. discriminate.
  - destruct (@find_scan_subpath p (firstn i E) "" (String.length p) None
                (le_n _)) as [H|(e0 & s & H & _ & _ & _ & Hne)];
      rewrite H in Hfind; [discriminate|].
    injection Hfind as <- _. contradiction.
Qed.

Lemma X4_root_entry_only_as_predecessor_witness :
  ascending E_root /\ find E_root "/x" = (Some entry_empty, "x")
  /\ path entry_empty = "" /\ "/x" <> ""
  /\ "/x" = "/" ++ "x"
  /\ forall c, In c E_root -> path c <> "" -> ("/x" <? path c) = true.
Proof.
  assert (Ha : ascending E_root) by (repeat constructor).
  split; [exact Ha|]. split; [reflexivity|]. split; [reflexivity|].
  split; [discriminate|].
  exact (@X4_root_entry_only_as_predecessor E_root "/x" entry_empty "x"
           Ha eq_refl eq_refl ltac:(discriminate)).
Defined.

(** * Further properties of the configuration compiler *)

(** X5.  [configure] succeeds exactly when [cache_max_age] is absent or
    not negative and every entry has a VCS among bzr, git, hg and svn, or
    no VCS and a repository that begins with [https://github.com/].
    Nothing else is checked: not the key, not the repository when the VCS
    is given, not the display. *)
Theorem X5_configure_acceptance (sorter : Sorter) (h : Handler) (c : Config) :
  snd (configure sorter h c) = None
  <-> cacheAgeValid c /\ Forall (fun kv => acceptable (snd kv)) (Paths c).
Proof.
  rewrite <- Forall_compiles_acceptable, <- compiledPrefix_succeeds. split.
  - intros Hnone. destruct (configure sorter h c) as [h' err] eqn:Hc.
    simpl in Hnone. subst err. apply configure_success in Hc. tauto.
  - intros [Hvalid Hnone]. rewrite (@configure_valid sorter h c Hvalid).
    simpl. destruct (compiledPrefix (Paths c)) as [es err].
    simpl in Hnone. now subst err.
Qed.

Lemma refreshLoop_app (sorter : Sorter) (interval : Z)
    (a b : list Fetched) :
  forall h,
  fst (refreshLoop sorter interval h (a ++ b))
  = fst (refreshLoop sorter interval
           (fst (refreshLoop sorter interval h a)) b).
Proof.
  induction a as [|fetched a IH]; intros h; simpl; [reflexivity|].
  destruct (refreshTurn sorter interval h fetched) as [h1 log1].
  specialize (IH h1).
  destruct (refreshLoop sorter interval h1 (a ++ b)) as [h2 log2].
  destruct (refreshLoop sorter interval h1 a) as [h3 log3].
  exact IH.
Qed.

(** X6.  A reload never merges: when [cache_max_age] is absent or not
    negative, what [configure] leaves and returns does not depend on the
    handler it started from.  So after any number of refresh turns, the
    handler is the one that the last fetched configuration yields from the
    zero handler, whatever was fetched before. *)
Theorem X6_reload_replaces_everything
    (sorter : Sorter) (c : Config) (h1 h2 : Handler) :
  cacheAgeValid c ->
  configure sorter h1 c = configure sorter h2 c
  /\ forall interval fetches,
       fst (refreshLoop sorter interval h1 (fetches ++ [inl c]))
       = fst (configure sorter Handler_zero c).
Proof.
  intros Hvalid.
  assert (Hindep : forall a b, configure sorter a c = configure sorter b c)
    by (intros a b; now rewrite !(@configure_valid sorter _ c Hvalid)).
  split; [apply Hindep|].
  intros interval fetches. rewrite refreshLoop_app. simpl.
  unfold refreshTurn.
  rewrite (Hindep (fst (refreshLoop sorter interval h1 fetches))
             Handler_zero).
  now destruct (configure sorter Handler_zero c) as [h' [msg|]].
Qed.

Lemma X6_reload_replaces_everything_witness :
  cacheAgeValid cfg_second
  /\ configure insertionSorter h_active cfg_second
     = configure insertionSorter Handler_zero cfg_second
  /\ fst (refreshLoop insertionSorter 86400 h_active
            [inr "EOF"; inl cfg_uninferable; inl cfg_second])
     = h_second.
Proof.
  assert (Hv : cacheAgeValid cfg_second)
    by (intros v Hv; injection Hv as <-; lia).
  split; [exact Hv|].
  destruct (@X6_reload_replaces_everything insertionSorter cfg_second
              h_active Handler_zero Hv) as [Hsame Hloop].
  split; [exact Hsame|].
  exact (Hloop 86400%Z [inr "EOF"; inl cfg_uninferable]).
Defined.

(** ** The order of the map iteration *)

Lemma ascending_strict (l : pathConfigSet) :
  ascending l -> NoDup (map path l) ->
  StronglySorted (fun a b => (path a <? path b) = true) l.
Proof.
  induction 1 as [|a l Hl IH Ha]; simpl; intros Hnd; constructor.
  - apply IH. now inversion Hnd.
  - inversion Hnd as [|? ? Hnotin _]. rewrite Forall_forall in *.
    intros b Hb. destruct (proj1 (leb_cases _ _) (Ha b Hb)) as [Hlt|Heq];
      [exact Hlt|].
    exfalso. apply Hnotin. rewrite Heq. now apply in_map.
Qed.

(** A set has one arrangement in strictly ascending order. *)
Lemma strictly_sorted_unique (l1 : pathConfigSet) :
  forall l2,
  StronglySorted (fun a b => (path a <? path b) = true) l1 ->
  StronglySorted (fun a b => (path a <? path b) = true) l2 ->
  Permutation l1 l2 -> l1 = l2.
Proof.
  induction l1 as [|a l1 IH]; intros l2 H1 H2 Hperm.
  - apply Permutation_nil in Hperm. now subst.
  - destruct l2 as [|b l2];
      [apply Permutation_sym, Permutation_nil in Hperm; discriminate|].
    apply StronglySorted_inv in H1, H2.
    destruct H1 as [H1 Ha], H2 as [H2 Hb]. rewrite Forall_forall in Ha, Hb.
    assert (Hab : a = b).
    { assert (Hina : In a (b :: l2))
        by (apply (Permutation_in _ Hperm); now left).
      assert (Hinb : In b (a :: l1))
        by (apply (Permutation_in _ (Permutation_sym Hperm)); now left).
      destruct Hina as [Heq|Hina]; [now symmetry|].
      destruct Hinb as [Heq|Hinb]; [exact Heq|].
      pose proof (ltb_asym _ _ (Ha b Hinb)) as F.
      rewrite (Hb a Hina) in F. discriminate. }
    subst b. f_equal. apply IH; auto.
    now apply Permutation_cons_inv in Hperm.
Qed.

Lemma compiled_entryOf (kvs : list (string * PathSpec)) (es : pathConfigSet) :
  Forall2 (fun kv pc => compileEntry (fst kv) (snd kv) = inl pc) kvs es ->
  es = map entryOf kvs.
Proof.
  induction 1 as [|kv pc kvs es Hpc _ IH]; simpl; [reflexivity|].
  unfold entryOf at 1. rewrite Hpc. now f_equal.
Qed.

(** X7.  Two successful compiles of the same map visited in different
    orders leave the same handler, provided no two keys normalise to the
    same path: the order in which [range] happens to visit the map then
    shows in no snapshot. *)
Theorem X7_iteration_order_does_not_show
    (sorter : Sorter) (h h' : Handler) (c1 c2 : Config) :
  Host c1 = Host c2 -> CacheAge c1 = CacheAge c2 ->
  Permutation (Paths c1) (Paths c2) ->
  NoDup (normalisedKeys c1) ->
  configure sorter h c1 = (h', None) ->
  configure sorter h c2 = (h', None).
Proof.
  intros Hhost Hage Hperm Hnd Hc1.
  apply configure_success in Hc1. destruct Hc1 as (Hvalid & Hnone1 & ->).
  assert (Hvalid2 : cacheAgeValid c2)
    by (unfold cacheAgeValid; rewrite <- Hage; exact Hvalid).
  assert (Hnone2 : snd (compiledPrefix (Paths c2)) = None).
  { apply compiledPrefix_succeeds.
    apply (Permutation_Forall Hperm). now apply compiledPrefix_succeeds. }
  rewrite (@configure_valid sorter h c2 Hvalid2). simpl.
  pose proof (compiledPrefix_ok _ Hnone1) as Hes1.
  pose proof (compiledPrefix_ok _ Hnone2) as Hes2.
  destruct (compiledPrefix (Paths c1)) as [es1 err1].
  destruct (compiledPrefix (Paths c2)) as [es2 err2].
  simpl in *. subst err1 err2.
  assert (Hperm_es : Permutation es1 es2).
  { rewrite (compiled_entryOf Hes1), (compiled_entryOf Hes2).
    now apply Permutation_map. }
  assert (Hnd1 : NoDup (map path es1))
    by (rewrite (compiled_paths Hes1); exact Hnd).
  assert (Hsorted : Permutation (Sort sorter es1) (Sort sorter es2)).
  { rewrite <- (Sort_Permutation sorter es1),
            <- (Sort_Permutation sorter es2). exact Hperm_es. }
  assert (HndS1 : NoDup (map path (Sort sorter es1))).
  { eapply Permutation_NoDup; [|exact Hnd1].
    apply Permutation_map, Sort_Permutation. }
  assert (HndS2 : NoDup (map path (Sort sorter es2))).
  { eapply Permutation_NoDup; [|exact HndS1].
    apply Permutation_map, Hsorted. }
  rewrite (strictly_sorted_unique
             (ascending_strict (Sort_ascending sorter es1) HndS1)
             (ascending_strict (Sort_ascending sorter es2) HndS2) Hsorted).
  unfold effectiveCacheAge. now rewrite Hhost, Hage.
Qed.

Lemma X7_iteration_order_does_not_show_witness :
  Host cfg_pair = Host cfg_pair_reversed
  /\ CacheAge cfg_pair = CacheAge cfg_pair_reversed
  /\ Permutation (Paths cfg_pair) (Paths cfg_pair_reversed)
  /\ NoDup (normalisedKeys cfg_pair)
  /\ configure insertionSorter h_active cfg_pair = (h_pair, None)
  /\ configure insertionSorter h_active cfg_pair_reversed = (h_pair, None).
Proof.
  assert (Hp : Permutation (Paths cfg_pair) (Paths cfg_pair_reversed))
    by apply perm_swap.
  assert (Hn : NoDup (normalisedKeys cfg_pair))
    by (repeat constructor; simpl; intuition discriminate).
  split; [reflexivity|]. split; [reflexivity|]. split; [exact Hp|].
  split; [exact Hn|]. split; [reflexivity|].
  exact (@X7_iteration_order_does_not_show insertionSorter h_active h_pair
           cfg_pair cfg_pair_reversed eq_refl eq_refl Hp Hn eq_refl).
Defined.

(** ** Repositories on bitbucket *)

Lemma bitbucket_not_github (r : string) :
  strings.HasPrefix r bitbucketPrefix = true ->
  strings.HasPrefix r githubPrefix = false.
Proof.
  intros Hb. destruct (strings.HasPrefix r githubPrefix) eqn:Hg;
    [|reflexivity].
  apply HasPrefix_iff in Hb, Hg. destruct Hb as [t ->], Hg as [u Hu].
  unfold bitbucketPrefix, githubPrefix in Hu. simpl in Hu. discriminate.
Qed.

(** X8.  For a repository that begins with [https://bitbucket.org] the
    display is inferred but the VCS is not: without a VCS the entry fails
    with the error that the VCS cannot be inferred; with a known VCS and
    no display, the entry is accepted with the bitbucket display built
    from the repository. *)
Theorem X8_bitbucket_needs_a_vcs (key : string) (e : PathSpec) :
  strings.HasPrefix (Repo e) bitbucketPrefix = true ->
  (VCS e = "" ->
   compileEntry key e = inr (errCannotInferVCS key (Repo e)))
  /\ (In (VCS e) knownVCS -> Display e = "" ->
      compileEntry key e
      = inl (mkPathConfig (strings.TrimSuffix key "/") (Repo e)
               (bitbucketDisplay (Repo e)) (VCS e))).
Proof.
  intros Hb. pose proof (bitbucket_not_github _ Hb) as Hg. split.
  - intros He. now apply compileEntry_cannot_infer.
  - intros Hknown Hd. unfold compileEntry, inferDisplay.
    rewrite Hd, Hg, Hb. simpl.
    destruct Hknown as [H|[H|[H|[H|[]]]]]; rewrite <- H; reflexivity.
Qed.

Lemma X8_bitbucket_needs_a_vcs_witness :
  strings.HasPrefix "https://bitbucket.org/o/hg" bitbucketPrefix = true
  /\ compileEntry "/hg/" (mkPathSpec "https://bitbucket.org/o/hg" "" "")
     = inr "configuration for /hg/: cannot infer VCS from https://bitbucket.org/o/hg".
Proof.
  split; [reflexivity|].
  exact (proj1 (@X8_bitbucket_needs_a_vcs "/hg/"
                  (mkPathSpec "https://bitbucket.org/o/hg" "" "") eq_refl)
           eq_refl).
Defined.

(** * Further properties of the dispatcher *)

(** X9.  Every vanity response is built from one entry of the handler's
    set whose path is a literal prefix of the request path, under the
    handler's cache policy, with the import path made of the effective
    host and that entry's path; the index is served for the request path
    [/] only, with one line per entry, and not-found never for [/].  When
    the handler has a host of its own, the response does not depend on the
    Host header of the request. *)
Theorem X9_ServeHTTP_outcomes (h : Handler) (r : Request) :
  (forall cc imp sub rp dp vc,
     ServeHTTP h r = Vanity cc imp sub rp dp vc ->
     cc = cacheControl h
     /\ exists pc rest,
          In pc (paths h) /\ URL_Path r = path pc ++ rest
          /\ (rest = sub \/ rest = "/" ++ sub)
          /\ imp = getHost h r ++ path pc
          /\ rp = repo pc /\ dp = display pc /\ vc = vcs pc)
  /\ (forall shown lines,
        ServeHTTP h r = Index shown lines ->
        URL_Path r = "/" /\ shown = getHost h r
        /\ lines = map (fun pc => shown ++ path pc) (paths h))
  /\ (ServeHTTP h r = NotFound -> URL_Path r <> "/")
  /\ (host h <> "" ->
      forall other,
        ServeHTTP h (mkRequest (URL_Path r) other) = ServeHTTP h r).
Proof.
  pose proof (find_result_shape (paths h) (URL_Path r)) as Hshape.
  assert (Hother : host h <> "" -> forall other,
            ServeHTTP h (mkRequest (URL_Path r) other) = ServeHTTP h r).
  { intros Hhost other. unfold ServeHTTP, serveIndex, getHost. simpl.
    apply String.eqb_neq in Hhost. now rewrite Hhost. }
  unfold ServeHTTP, serveIndex in *.
  destruct (find (paths h) (URL_Path r)) as [[pc|] sub0] eqn:Hfind.
  - destruct Hshape as [Hin Hcases].
    split; [|split; [|split]]; [| discriminate | discriminate | exact Hother].
    intros cc imp sub rp dp vc Heq. injection Heq as <- <- <- <- <- <-.
    split; [reflexivity|]. exists pc.
    destruct Hcases as [[Hp ->]|[Hp|[Hp _]]].
    + exists "". rewrite app_empty_r. repeat split; auto.
    + exists ("/" ++ sub0). repeat split; auto.
    + exists sub0. repeat split; auto.
  - destruct (URL_Path r =? "/") eqn:Eroot.
    + apply String.eqb_eq in Eroot.
      split; [|split; [|split]];
        [discriminate | | discriminate | exact Hother].
      intros shown lines Heq. injection Heq as <- <-. auto.
    + apply String.eqb_neq in Eroot.
      split; [|split; [|split]];
        [discriminate | discriminate | auto | exact Hother].
Qed.

(** X10.  A root entry hides the index: on a sorted set that holds an
    entry with the empty path and whose other paths all begin with a
    slash, the request path [/] resolves to an entry, so [ServeHTTP]
    answers it with a vanity page and never with the index. *)
Theorem X10_root_entry_hides_the_index
    (h : Handler) (r : Request) (e : pathConfig) :
  ascending (paths h) -> In e (paths h) -> path e = "" ->
  (forall c, In c (paths h) -> path c <> "" ->
             strings.HasPrefix (path c) "/" = true) ->
  URL_Path r = "/" ->
  exists pc sub,
    find (paths h) "/" = (Some pc, sub)
    /\ ServeHTTP h r
       = Vanity (cacheControl h) (getHost h r ++ path pc) sub
                (repo pc) (display pc) (vcs pc).
Proof.
  intros Hasc Hin Hempty Hslash Hp.
  assert (Hfound : exists pc sub, find (paths h) "/" = (Some pc, sub)).
  { destruct (@search_bounds (paths h) "/" Hasc) as (Hr & Hlo & Hhi).
    unfold find.
    set (i := sort.Search (Len (paths h))
                (fun i => ("/" <=? path (at_index (paths h) i)))) in *.
    destruct ((i <? Len (paths h))%nat
              && (path (at_index (paths h) i) =? "/")); [eauto|].
    destruct (In_nth (paths h) e pathConfig_zero Hin) as (k & Hk & Hnth).
    assert (Hki : k < i).
    { destruct (Nat.lt_ge_cases k i) as [|Hge]; [assumption|].
      specialize (Hhi k Hge Hk). unfold at_index in Hhi.
      rewrite Hnth, Hempty in Hhi. discriminate. }
    assert (Hprev : path (at_index (paths h) (i - 1)) = "").
    { destruct (string_dec (path (at_index (paths h) (i - 1))) "")
        as [|Hne]; [assumption|].
      exfalso.
      assert (Hmem : In (at_index (paths h) (i - 1)) (paths h))
        by (apply nth_In; unfold Len in *; lia).
      pose proof (Hslash _ Hmem Hne) as Hs.
      apply HasPrefix_iff in Hs. destruct Hs as [t Ht].
      specialize (Hlo (i - 1) ltac:(lia)). rewrite Ht in Hlo.
      apply ltb_lt in Hlo. rewrite String.compare_antisym in Hlo.
      rewrite compare_app in Hlo. now destruct (t =? ""). }
    assert (Hpos : (0 <? i)%nat = true) by (apply Nat.ltb_lt; lia).
    rewrite Hpos, Hprev. simpl. eauto. }
  destruct Hfound as (pc & sub & Hfind). exists pc, sub.
  split; [exact Hfind|]. unfold ServeHTTP. now rewrite Hp, Hfind.
Qed.

Lemma X10_root_entry_hides_the_index_witness :
  ascending E_root /\ In entry_empty E_root /\ path entry_empty = ""
  /\ ServeHTTP (mkHandler "" "" E_root) (mkRequest "/" "example.org")
     = Vanity "" "example.org" "" "R0" "" "git".
Proof.
  assert (Ha : ascending E_root) by (repeat constructor).
  assert (Hi : In entry_empty E_root) by (left; reflexivity).
  split; [exact Ha|]. split; [exact Hi|]. split; [reflexivity|].
  destruct (@X10_root_entry_hides_the_index (mkHandler "" "" E_root)
              (mkRequest "/" "example.org") entry_empty Ha Hi eq_refl)
    as (pc & sub & Hfind & Hserve).
  - intros c [<-|[<-|[]]] Hne; [now elim Hne | reflexivity].
  - reflexivity.
  - rewrite Hserve. vm_compute in Hfind. injection Hfind as <- <-.
    reflexivity.
Defined.

(** X11.  A handler without entries answers the request path [/] with an
    empty index and every other path with not-found; a configuration
    without paths and with a valid cache age compiles to such a handler. *)
Theorem X11_no_entries (sorter : Sorter) (h : Handler) (c : Config) :
  (forall host0 control r,
     ServeHTTP (mkHandler host0 control []) r
     = if URL_Path r =? "/"
       then Index (getHost (mkHandler host0 control []) r) []
       else NotFound)
  /\ (cacheAgeValid c -> Paths c = [] ->
      configure sorter h c
      = (mkHandler (Host c)
           ("public, max-age=" ++ fmt_d (effectiveCacheAge c)) [],
         None)).
Proof.
  split.
  - intros host0 control r. unfold ServeHTTP. simpl.
    now destruct (URL_Path r =? "/").
  - intros Hvalid Hpaths. rewrite (@configure_valid sorter h c Hvalid).
    rewrite Hpaths. simpl.
    now rewrite (Permutation_nil (Sort_Permutation sorter [])).
Qed.

(** * Further properties of the lifecycle *)

(** X12.  [NewHandler] returns a handler exactly when the fetch succeeds
    and the configuration is acceptable to [configure]; the handler is
    then the one [configure] builds from the zero handler, and the
    interval handed to the goroutine is positive: the configured
    [fetch_interval] when that is positive, 86400 otherwise. *)
Theorem X12_NewHandler_outcomes (sorter : Sorter) (first : Fetched) :
  ((exists h interval, NewHandler sorter first = inl (h, interval))
   <-> exists c, first = inl c /\ cacheAgeValid c
                 /\ Forall (fun kv => acceptable (snd kv)) (Paths c))
  /\ (forall h interval,
        NewHandler sorter first = inl (h, interval) ->
        (0 < interval)%Z
        /\ exists c,
             first = inl c
             /\ configure sorter Handler_zero c = (h, None)
             /\ (forall v, FetchInterval c = Some v -> (0 < v)%Z ->
                           interval = v)
             /\ ((forall v, FetchInterval c = Some v -> (v <= 0)%Z) ->
                 interval = 86400%Z)).
Proof.
  split.
  - split.
    + intros (h & interval & Hnew). destruct first as [c|err];
        [|discriminate].
      exists c. split; [reflexivity|].
      unfold NewHandler in Hnew.
      destruct (configure sorter Handler_zero c) as [h0 [msg|]] eqn:Hc;
        [discriminate|].
      apply configure_success in Hc. destruct Hc as (Hvalid & Hnone & _).
      split; [exact Hvalid|].
      now apply Forall_compiles_acceptable, compiledPrefix_succeeds.
    + intros (c & -> & Hvalid & Hacc). unfold NewHandler.
      rewrite (@configure_valid sorter Handler_zero c Hvalid). simpl.
      apply Forall_compiles_acceptable, compiledPrefix_succeeds in Hacc.
      destruct (compiledPrefix (Paths c)) as [es err]. simpl in Hacc.
      subst err. eauto.
  - intros h interval Hnew. destruct first as [c|err]; [|discriminate].
    unfold NewHandler in Hnew.
    destruct (configure sorter Handler_zero c) as [h0 [msg|]] eqn:Hc;
      [discriminate|].
    injection Hnew as <- <-.
    destruct (FetchInterval c) as [v|] eqn:Hv.
    + destruct (0 <? v)%Z eqn:Epos.
      * apply Z.ltb_lt in Epos. split; [exact Epos|].
        exists c. split; [reflexivity|]. split; [exact Hc|]. split.
        -- intros v' Hv' _. congruence.
        -- intros Hle. specialize (Hle v Hv). lia.
      * apply Z.ltb_ge in Epos. split; [lia|].
        exists c. split; [reflexivity|]. split; [exact Hc|]. split.
        -- intros v' Hv' Hpos. assert (v' = v) by congruence. lia.
        -- reflexivity.
    + split; [lia|]. exists c. split; [reflexivity|].
      split; [exact Hc|]. split; [intros v Hv'; congruence | reflexivity].
Qed.

(** X13.  The goroutine sleeps for [time.Duration(fetchInterval) *
    time.Second], an [int64] product.  For a positive interval this
    duration is exactly the interval in seconds if and only if the interval
    is at most 9223372036, and it is then positive; from 9223372037 seconds
    on, the product leaves the range of [int64] and the duration is some
    other value of that range: negative at 9223372037, positive again at
    18446744074. *)
Theorem X13_sleep_duration (interval : Z) :
  (0 < interval)%Z ->
  (- 2 ^ 63 <= seconds interval < 2 ^ 63)%Z
  /\ (seconds interval = (interval * 1000000000)%Z
      <-> (interval <= 9223372036)%Z)
  /\ ((interval <= 9223372036)%Z -> (0 < seconds interval)%Z)
  /\ ((9223372037 <= interval)%Z ->
      seconds interval <> (interval * 1000000000)%Z)
  /\ (seconds 9223372037 < 0)%Z
  /\ (0 < seconds 18446744074)%Z.
Proof.
  intros Hpos.
  assert (Hrange : (- 2 ^ 63 <= seconds interval < 2 ^ 63)%Z).
  { unfold seconds, wrap64.
    pose proof (Z.mod_pos_bound (interval * 1000000000 + 2 ^ 63) (2 ^ 64)
                  ltac:(lia)).
    lia. }
  assert (Hsmall : (interval <= 9223372036)%Z ->
                   seconds interval = (interval * 1000000000)%Z).
  { intros Hle. unfold seconds, wrap64. rewrite Z.mod_small; lia. }
  assert (Hlarge : (9223372037 <= interval)%Z ->
                   seconds interval <> (interval * 1000000000)%Z)
    by (intros Hge; lia).
  split; [exact Hrange|]. split; [|split; [|split; [|split]]].
  - split; [|exact Hsmall]. intros Heq.
    destruct (Z.le_gt_cases interval 9223372036) as [|Hgt]; [assumption|].
    exfalso. apply Hlarge; [lia | exact Heq].
  - intros Hle. rewrite (Hsmall Hle). lia.
  - exact Hlarge.
  - reflexivity.
  - reflexivity.
Qed.

Lemma X13_sleep_duration_witness :
  (0 < 86400)%Z
  /\ seconds 86400 = 86400000000000%Z
  /\ (0 < 9223372037)%Z
  /\ seconds 9223372037 <> (9223372037 * 1000000000)%Z.
Proof.
  split; [lia|].
  split; [exact (proj2 (proj1 (proj2 (@X13_sleep_duration 86400%Z
                                        ltac:(lia)))) ltac:(lia))|].
  split; [lia|].
  exact (proj1 (proj2 (proj2 (proj2 (@X13_sleep_duration 9223372037%Z
                                       ltac:(lia))))) ltac:(lia)).
Defined.

(** X15.  Turns of the refresh loop whose fetch fails, or fetches a
    configuration with a negative cache age, leave the handler as it was;
    each logs exactly its one error after its sleep. *)
Theorem X15_failing_turns_keep_the_handler
    (sorter : Sorter) (interval : Z) (h : Handler)
    (fetches : list Fetched) :
  Forall stopsBeforeWriting fetches ->
  refreshLoop sorter interval h fetches
  = (h, flat_map (fun fetched =>
                    [Sleep (seconds interval); Log (loggedFor fetched)])
                 fetches).
Proof.
  induction 1 as [|fetched rest Hstop _ IH]; simpl; [reflexivity|].
  assert (Hturn : refreshTurn sorter interval h fetched
                  = (h, [Sleep (seconds interval);
                         Log (loggedFor fetched)])).
  { unfold refreshTurn. destruct fetched as [c|err]; simpl; [|reflexivity].
    destruct Hstop as (v & Hv & Hneg).
    now rewrite (@configure_negative sorter h c v Hv Hneg). }
  now rewrite Hturn, IH.
Qed.

Lemma X15_failing_turns_keep_the_handler_witness :
  Forall stopsBeforeWriting [inr "EOF"; inl cfg_negative_age]
  /\ refreshLoop insertionSorter 86400 h_active
       [inr "EOF"; inl cfg_negative_age]
     = (h_active,
        [Sleep (seconds 86400); Log "EOF";
         Sleep (seconds 86400); Log "cache_max_age is negative"]).
Proof.
  assert (H : Forall stopsBeforeWriting [inr "EOF"; inl cfg_negative_age]).
  { repeat constructor. exists (-1)%Z. split; [reflexivity | lia]. }
  split; [exact H|].
  exact (@X15_failing_turns_keep_the_handler insertionSorter 86400%Z
           h_active _ H).
Defined.

(** * [sort.Interface] *)

(** X16.  [Less] is a strict weak order on the positions of a set:
    irreflexive, asymmetric and transitive, and being unordered either way
    (equal paths) is transitive too; this is what [sort.Sort] requires of
    it. *)
Theorem X16_Less_strict_weak_order (pset : pathConfigSet) (i j k : nat) :
  Less pset i i = false
  /\ (Less pset i j = true -> Less pset j i = false)
  /\ (Less pset i j = true -> Less pset j k = true -> Less pset i k = true)
  /\ (Less pset i j = false -> Less pset j i = false ->
      Less pset j k = false -> Less pset k j = false ->
      Less pset i k = false /\ Less pset k i = false)
  /\ (Less pset i j = false -> Less pset j i = false ->
      path (at_index pset i) = path (at_index pset j)).
Proof.
  unfold Less.
  assert (Heq : forall a b, (a <? b) = false -> (b <? a) = false -> a = b).
  { intros a b Hab Hba. apply ltb_false_leb in Hab, Hba.
    now apply String.leb_antisym. }
  split; [apply ltb_irrefl|]. split; [apply ltb_asym|].
  split; [apply ltb_trans|]. split.
  - intros Hij Hji Hjk Hkj.
    rewrite (Heq _ _ Hij Hji), (Heq _ _ Hjk Hkj).
    split; apply ltb_irrefl.
  - apply Heq.
Qed.

Lemma set_index_length (l : pathConfigSet) :
  forall i x, List.length (set_index l i x) = List.length l.
Proof.
  induction l as [|y l IH]; intros [|i] x; simpl; auto.
Qed.

Lemma set_index_same (l : pathConfigSet) :
  forall i x d, i < List.length l -> nth i (set_index l i x) d = x.
Proof.
  induction l as [|y l IH]; intros [|i] x d Hi; simpl in *; try lia; auto.
  apply IH. lia.
Qed.

Lemma set_index_other (l : pathConfigSet) :
  forall i j x d, i <> j -> nth j (set_index l i x) d = nth j l d.
Proof.
  induction l as [|y l IH]; intros [|i] [|j] x d Hij; simpl; auto;
    try congruence.
Qed.

Lemma set_index_Permutation (l : pathConfigSet) :
  forall i x d, i < List.length l ->
  Permutation (x :: l) (nth i l d :: set_index l i x).
Proof.
  induction l as [|y l IH]; intros [|i] x d Hi; simpl in *; try lia.
  - apply perm_swap.
  - rewrite perm_swap. rewrite (IH i x d) by lia. apply perm_swap.
Qed.

(** X17.  [Swap] of two positions within range exchanges the entries at
    these positions and touches no other: the set keeps its length and
    its entries, and swapping again restores it. *)
Theorem X17_Swap_exchanges (pset : pathConfigSet) (i j : nat) :
  i < Len pset -> j < Len pset ->
  Len (Swap pset i j) = Len pset
  /\ at_index (Swap pset i j) i = at_index pset j
  /\ at_index (Swap pset i j) j = at_index pset i
  /\ (forall k, k <> i -> k <> j ->
                at_index (Swap pset i j) k = at_index pset k)
  /\ Permutation pset (Swap pset i j)
  /\ Swap (Swap pset i j) i j = pset.
Proof.
  unfold Len, Swap, at_index. intros Hi Hj.
  set (d := pathConfig_zero).
  set (l1 := set_index pset i (nth j pset d)).
  assert (Hl1 : List.length l1 = List.length pset)
    by apply set_index_length.
  assert (Hat_i : nth i (set_index l1 j (nth i pset d)) d = nth j pset d).
  { destruct (Nat.eq_dec i j) as [->|Hne].
    - apply set_index_same. lia.
    - rewrite set_index_other by auto. apply set_index_same. lia. }
  assert (Hat_j : nth j (set_index l1 j (nth i pset d)) d = nth i pset d)
    by (apply set_index_same; lia).
  assert (Hat_k : forall k, k <> i -> k <> j ->
            nth k (set_index l1 j (nth i pset d)) d = nth k pset d).
  { intros k Hki Hkj. rewrite set_index_other by auto.
    apply set_index_other. auto. }
  assert (Hlen : List.length (set_index l1 j (nth i pset d))
                 = List.length pset)
    by (rewrite set_index_length; exact Hl1).
  split; [exact Hlen|]. split; [exact Hat_i|]. split; [exact Hat_j|].
  split; [exact Hat_k|]. split.
  - apply Permutation_cons_inv with (a := nth j pset d).
    rewrite (set_index_Permutation pset (nth j pset d) d Hi). fold l1.
    assert (Hj1 : nth j l1 d = nth j pset d).
    { unfold l1. destruct (Nat.eq_dec i j) as [->|Hne].
      - apply set_index_same. lia.
      - apply set_index_other. auto. }
    rewrite (set_index_Permutation l1 (nth i pset d) d (i := j)) by lia.
    now rewrite Hj1.
  - apply nth_ext with (d := d) (d' := d).
    + rewrite !set_index_length. exact Hl1.
    + intros k Hk. rewrite Hat_i, Hat_j.
      set (l2 := set_index l1 j (nth i pset d)) in *.
      destruct (Nat.eq_dec k j) as [->|Hkj].
      * rewrite set_index_same; [reflexivity|].
        rewrite set_index_length. lia.
      * rewrite set_index_other by auto.
        destruct (Nat.eq_dec k i) as [->|Hki].
        -- apply set_index_same. lia.
        -- rewrite set_index_other by auto. now apply Hat_k.
Qed.

Lemma X17_Swap_exchanges_witness :
  0 < Len E_ab /\ 1 < Len E_ab
  /\ Swap E_ab 0 1 = [entry_ab; entry_a]
  /\ Swap (Swap E_ab 0 1) 0 1 = E_ab.
Proof.
  assert (H0 : 0 < Len E_ab) by (vm_compute; lia).
  assert (H1 : 1 < Len E_ab) by (vm_compute; lia).
  split; [exact H0|]. split; [exact H1|]. split; [reflexivity|].
  exact (proj2 (proj2 (proj2 (proj2 (proj2
           (@X17_Swap_exchanges E_ab 0 1 H0 H1)))))).
Defined.

(** * Explicit fields and inference *)

(** X18.  What the configuration states explicitly is never replaced by
    inference.  A non-empty display is stored as it is.  A non-empty VCS
    is stored as it is when it is bzr, git, hg or svn, whatever the
    repository, and is otherwise rejected with the error that names the
    key and the unknown VCS, even for a repository on github.  With no
    display and a repository neither on github nor on bitbucket, the
    stored display is empty. *)
Theorem X18_explicit_fields_win (key : string) (e : PathSpec) :
  (forall pc, compileEntry key e = inl pc -> Display e <> "" ->
              display pc = Display e)
  /\ (forall pc, compileEntry key e = inl pc -> Display e = "" ->
                 strings.HasPrefix (Repo e) githubPrefix = false ->
                 strings.HasPrefix (Repo e) bitbucketPrefix = false ->
                 display pc = "")
  /\ (In (VCS e) knownVCS ->
      exists pc, compileEntry key e = inl pc /\ vcs pc = VCS e
                 /\ repo pc = Repo e)
  /\ (VCS e <> "" -> ~ In (VCS e) knownVCS ->
      compileEntry key e = inr (errUnknownVCS key (VCS e))).
Proof.
  split; [|split; [|split]].
  - intros pc Hpc Hd. apply compileEntry_ok in Hpc.
    destruct Hpc as (_ & _ & -> & _). unfold inferDisplay.
    apply String.eqb_neq in Hd. now rewrite Hd.
  - intros pc Hpc Hd Hg Hb. apply compileEntry_ok in Hpc.
    destruct Hpc as (_ & _ & -> & _). unfold inferDisplay.
    now rewrite Hd, Hg, Hb.
  - intros Hknown.
    destruct (proj2 (compiles_acceptable key e) (or_introl Hknown))
      as [pc Hpc].
    simpl in Hpc. exists pc. split; [exact Hpc|].
    apply compileEntry_ok in Hpc.
    destruct Hpc as (_ & Hrepo & _ & _ & [[_ Hv]|(He & _)]).
    + auto.
    + exfalso. rewrite He in Hknown. unfold knownVCS in Hknown.
      simpl in Hknown. intuition discriminate.
  - intros Hne Hunknown. unfold compileEntry.
    apply String.eqb_neq in Hne. rewrite Hne. simpl.
    unfold knownVCS in Hunknown. simpl in Hunknown.
    destruct (VCS e =? "bzr") eqn:E1;
      [apply String.eqb_eq in E1; exfalso; apply Hunknown; auto|].
    destruct (VCS e =? "git") eqn:E2;
      [apply String.eqb_eq in E2; exfalso; apply Hunknown; auto|].
    destruct (VCS e =? "hg") eqn:E3;
      [apply String.eqb_eq in E3; exfalso; apply Hunknown; auto|].
    destruct (VCS e =? "svn") eqn:E4;
      [apply String.eqb_eq in E4; exfalso; apply Hunknown; auto 6|].
    reflexivity.
Qed.
